(** * hydrosheds: tile cache, bounding boxes, dispatch and point queries

    A shallow embedding of the C++ query engine of the hydrosheds
    repository (include/hydrosheds/{bbox,tile_cache,parallel_for}.hpp,
    src/{tile_cache,dataset}.cpp) together with the properties that its
    natural-language specification states about it.

    Conventions.
    - [size_t] values are [Z] with the wrap-around modulo 2^64 written out.
    - [double] is IEEE binary64, taken from the Standard Library's executable
      [spec_float] (precision 53, emax 1024).
    - [std::unordered_map<TileKey, std::vector<char>>] is a [gmap]; the
      [std::list<TileKey>] of accesses is a [list].
    - A C++ exception is an [outcome] [Throw]; undefined behaviour
      ([back()] of an empty list, division by zero, an out-of-range
      conversion or subscript) is the [outcome] [Undefined]. *)

From Stdlib Require Import ZArith List Bool Lia.
From Stdlib Require Import Floats.SpecFloat.
From stdpp Require Import base option list gmap fin_maps.

Local Open Scope Z_scope.

(** ** Outcomes of fallible code *)

(** The exceptions thrown by the sources, named as the specification names
    them.  [SizeMismatch] is [std::invalid_argument("lon and lat must have
    the same size")]; the others are [std::runtime_error] with the messages
    "Failed to transform coordinates.", "Requested tile is out of bounds."
    and "Failed to read tile from dataset.". *)
Inductive error : Type :=
  | SizeMismatch
  | TransformError
  | OutOfBounds
  | IOError.

Inductive outcome (A : Type) : Type :=
  | Done (a : A)
  | Throw (e : error)
  | Undefined.

Arguments Done {A} a.
Arguments Throw {A} e.
Arguments Undefined {A}.

Definition outcome_map {A B : Type} (f : A → B) (o : outcome A) : outcome B :=
  match o with
  | Done a => Done (f a)
  | Throw e => Throw e
  | Undefined => Undefined
  end.

(** ** Machine integers *)

Definition SIZE_MOD : Z := 2 ^ 64.

(** Arithmetic of [size_t]. *)
Definition wrap (z : Z) : Z := z mod SIZE_MOD.

(** Conversion of a [size_t] to [int] (modular, two's complement). *)
Definition to_int (z : Z) : Z := (z + 2 ^ 31) mod 2 ^ 32 - 2 ^ 31.

(** Conversion of an [int] to [size_t]. *)
Definition of_int (z : Z) : Z := z mod SIZE_MOD.

(** ** tile_cache.hpp / tile_cache.cpp *)

(** [using TileKey = std::tuple<int, int>]. *)
Abbreviation TileKey := (Z * Z)%type (only parsing).

(** [std::vector<char>]: one byte per pixel. *)
Abbreviation Tile := (list Z) (only parsing).

Record TileCache : Type := mkTileCache {
  max_tiles_ : Z;
  tile_map_ : gmap (Z * Z) (list Z);
  access_order_ : list (Z * Z)
}.

(** [explicit TileCache(size_t max_tiles)]. *)
Definition TileCache_new (max_tiles : Z) : TileCache :=
  {| max_tiles_ := max_tiles; tile_map_ := ∅; access_order_ := [] |}.

(** [tile_map_.find(key) != tile_map_.end()]. *)
Definition is_tile_in_cache (key : TileKey) (c : TileCache) : bool :=
  bool_decide (is_Some (tile_map_ c !! key)).

(** [std::list::remove]: erases every element equal to [key]. *)
Definition list_remove (key : TileKey) (l : list (Z * Z)) : list (Z * Z) :=
  filter (λ k, k ≠ key) l.

(** [std::unordered_map::operator[]]: a reference to the mapped value,
    inserting a value-initialised (empty) vector when the key is absent. *)
Definition map_subscript (key : TileKey) (m : gmap (Z * Z) (list Z))
  : list Z * gmap (Z * Z) (list Z) :=
  match m !! key with
  | Some t => (t, m)
  | None => ([], <[key := []]> m)
  end.

(** [TileCache::get_tile_from_cache]. *)
Definition get_tile_from_cache (key : TileKey) (c : TileCache)
  : Tile * TileCache :=
  let order := key :: list_remove key (access_order_ c) in
  let '(t, m) := map_subscript key (tile_map_ c) in
  (t, {| max_tiles_ := max_tiles_ c; tile_map_ := m; access_order_ := order |}).

(** [std::list::back] followed by [pop_back]: the last element and the list
    without it; nothing for the empty list, where [back()] is undefined. *)
Fixpoint pop_back (l : list (Z * Z)) : option (TileKey * list (Z * Z)) :=
  match l with
  | [] => None
  | x :: l' =>
      match pop_back l' with
      | None => Some (x, [])
      | Some (b, r) => Some (b, x :: r)
      end
  end.

(** [TileCache::add_tile_to_cache]. *)
Definition add_tile_to_cache (key : TileKey) (tile_data : Tile) (c : TileCache)
  : outcome TileCache :=
  if max_tiles_ c <=? Z.of_nat (size (tile_map_ c)) then
    match pop_back (access_order_ c) with
    | None => Undefined
    | Some (deprecated_key, order) =>
        Done {| max_tiles_ := max_tiles_ c;
                tile_map_ := <[key := tile_data]> (delete deprecated_key (tile_map_ c));
                access_order_ := key :: order |}
    end
  else
    Done {| max_tiles_ := max_tiles_ c;
            tile_map_ := <[key := tile_data]> (tile_map_ c);
            access_order_ := key :: access_order_ c |}.

(** A client of the cache: the three public operations. *)
Inductive cache_op : Type :=
  | OpContains (key : TileKey)
  | OpGet (key : TileKey)
  | OpPut (key : TileKey) (tile_data : Tile).

Definition apply_op (op : cache_op) (c : TileCache) : outcome TileCache :=
  match op with
  | OpContains _ => Done c
  | OpGet key => Done (snd (get_tile_from_cache key c))
  | OpPut key tile_data => add_tile_to_cache key tile_data c
  end.

Fixpoint run_ops (ops : list cache_op) (c : TileCache) : outcome TileCache :=
  match ops with
  | [] => Done c
  | op :: rest =>
      match apply_op op c with
      | Done c' => run_ops rest c'
      | Throw e => Throw e
      | Undefined => Undefined
      end
  end.

(** The way [Dataset::is_water] uses the cache: a tile is fetched only when
    it is present and added only when it is absent. *)
Definition op_ok (op : cache_op) (c : TileCache) : bool :=
  match op with
  | OpContains _ => true
  | OpGet key => is_tile_in_cache key c
  | OpPut key _ => negb (is_tile_in_cache key c)
  end.

Fixpoint ops_ok (ops : list cache_op) (c : TileCache) : bool :=
  match ops with
  | [] => true
  | op :: rest =>
      op_ok op c &&
      match apply_op op c with
      | Done c' => ops_ok rest c'
      | _ => false
      end
  end.

(** The keys a sequence of operations accesses ([contains] is a query, not
    an access), oldest first. *)
Definition accessed (ops : list cache_op) : list TileKey :=
  omap (λ op, match op with
              | OpContains _ => None
              | OpGet key => Some key
              | OpPut key _ => Some key
              end) ops.

(** Recency order of a history of accesses, most recent first, without
    repetition. *)
Definition touch (l : list (Z * Z)) (key : TileKey) : list (Z * Z) :=
  key :: list_remove key l.

Definition recency (keys : list TileKey) : list (Z * Z) :=
  fold_left touch keys [].

(** ** Doubles *)

(** IEEE binary64. *)
Definition double : Type := spec_float.

Definition d_add : double → double → double := SFadd 53 1024.
Definition d_sub : double → double → double := SFsub 53 1024.
Definition d_mul : double → double → double := SFmul 53 1024.
Definition d_div : double → double → double := SFdiv 53 1024.

(** [a <= b] on doubles; false as soon as one side is a NaN. *)
Definition d_leb (a b : double) : bool := SFleb a b.

(** Conversion of a [size_t] to [double] (round to nearest even). *)
Definition d_of_size_t (z : Z) : double := binary_normalize 53 1024 z 0 false.

(** [static_cast<size_t>(d)]: the fractional part is discarded; the
    behaviour is undefined when the truncated value is not a [size_t]. *)
Definition double_to_size_t (d : double) : outcome Z :=
  match d with
  | S754_zero _ => Done 0
  | S754_finite s m e =>
      let t := Z.shiftl (Z.pos m) e in
      if s then (if t =? 0 then Done 0 else Undefined)
      else (if t <? SIZE_MOD then Done t else Undefined)
  | S754_infinity _ => Undefined
  | S754_nan => Undefined
  end.


(** ** bbox.hpp *)

(** [std::array<double, 6>]. *)
Record Geotransform : Type := mkGeotransform {
  g0 : double; g1 : double; g2 : double;
  g3 : double; g4 : double; g5 : double
}.

Record BBox : Type := mkBBox {
  min_x_ : double;
  max_x_ : double;
  min_y_ : double;
  max_y_ : double
}.

(** [BBox::BBox(geotransform, x_size, y_size)]. *)
Definition BBox_new (g : Geotransform) (x_size y_size : Z) : BBox :=
  {| min_x_ := g0 g;
     max_x_ := d_add (g0 g) (d_mul (g1 g) (d_of_size_t x_size));
     min_y_ := d_add (g3 g) (d_mul (g5 g) (d_of_size_t y_size));
     max_y_ := g3 g |}.

(** [BBox::contains]. *)
Definition contains (b : BBox) (lon lat : double) : bool :=
  d_leb (min_x_ b) lon && d_leb lon (max_x_ b) &&
  d_leb (min_y_ b) lat && d_leb lat (max_y_ b).

(** ** The world outside: raster reads *)

(** One entry per call of [GDALRasterBand::RasterIO]: the window
    [(x_offset, y_offset, x_size, y_size)] that was asked for. *)
Abbreviation io_log := (list (Z * Z * Z * Z)) (only parsing).

(** Computations that may throw or be undefined, with the raster reads they
    have made up to that point. *)
Definition M (A : Type) : Type := (outcome A * io_log)%type.

Definition ret {A : Type} (a : A) : M A := (Done a, []).

Definition throw {A : Type} (e : error) : M A := (Throw e, []).

Definition undefined {A : Type} : M A := (Undefined, []).

Definition lift {A : Type} (o : outcome A) : M A := (o, []).

Definition bind {A B : Type} (m : M A) (f : A → M B) : M B :=
  match m with
  | (Done a, reads) => let '(b, reads') := f a in (b, reads ++ reads')
  | (Throw e, reads) => (Throw e, reads)
  | (Undefined, reads) => (Undefined, reads)
  end.

Notation "x <~ m ;; k" := (bind m (λ x, k))
  (at level 100, m at next level, right associativity).

(** ** dataset.hpp / dataset.cpp *)

(** [Dataset::DatasetInfo].  The opened [GDALDataset] is represented by what
    a read of band 1 returns, [raster_io x_offset y_offset x_size y_size
    buffer buf_x buf_y] being the buffer after the call, or nothing when
    [RasterIO] does not return [CE_None]; the [OGRCoordinateTransformation]
    by the function it applies to one point, nothing when it returns false.
    The mutex guards the handle and has no sequential content. *)
Record DatasetInfo : Type := mkDatasetInfo {
  raster_io : Z → Z → Z → Z → Tile → Z → Z → option Tile;
  transform : double → double → option (double * double);
  geotransform : Geotransform;
  bbox : BBox;
  x_size : Z;
  y_size : Z
}.

(** [Dataset::DatsetCache] (the name is the source's). *)
Record DatsetCache : Type := mkDatsetCache {
  dataset_info : DatasetInfo;
  tile_cache : TileCache
}.

Record Dataset : Type := mkDataset {
  base_datasets_ : list DatasetInfo;
  tile_size_ : Z;
  max_cache_size_ : Z;
  espg_code_ : Z
}.

(** [Dataset::allocate_cache]. *)
Definition allocate_cache (d : Dataset) : list DatsetCache :=
  map (λ info, {| dataset_info := info;
                  tile_cache := TileCache_new (max_cache_size_ d) |})
      (base_datasets_ d).

(** The call of [RasterIO] in [load_tile_cache]. *)
Definition read_band (info : DatasetInfo) (x_offset y_offset x_size y_size : Z)
    (buffer : Tile) (buf_x buf_y : Z) : M Tile :=
  match raster_io info x_offset y_offset x_size y_size buffer buf_x buf_y with
  | Some t => (Done t, [(x_offset, y_offset, x_size, y_size)])
  | None => (Throw IOError, [(x_offset, y_offset, x_size, y_size)])
  end.

(** [Dataset::load_tile_cache], up to the read: the window of the tile,
    the bounds check and the call of [RasterIO] on a zeroed buffer. *)
Definition read_tile (tile_size : Z) (tile_key : TileKey) (info : DatasetInfo)
  : M Tile :=
  let x_offset := wrap (of_int (fst tile_key) * tile_size) in
  let y_offset := wrap (of_int (snd tile_key) * tile_size) in
  let x_sz := Z.min tile_size (wrap (x_size info - x_offset)) in
  let y_sz := Z.min tile_size (wrap (y_size info - y_offset)) in
  let tile_data := repeat 0 (Z.to_nat (wrap (tile_size * tile_size))) in
  if (x_size info <=? x_offset) || (y_size info <=? y_offset) ||
     (x_size info <? wrap (x_offset + x_sz)) ||
     (y_size info <? wrap (y_offset + y_sz)) ||
     (x_offset <? 0) || (y_offset <? 0)
  then throw OutOfBounds
  else
    read_band info x_offset y_offset x_sz y_sz tile_data tile_size tile_size.

(** [Dataset::load_tile_cache]: the tile is read, then moved into the
    cache. *)
Definition load_tile_cache (tile_size : Z) (tile_key : TileKey)
    (dataset_cache : DatsetCache) : M DatsetCache :=
  let info := dataset_info dataset_cache in
  tile_data <~ read_tile tile_size tile_key info ;;
  cache' <~ lift (add_tile_to_cache tile_key tile_data
                    (tile_cache dataset_cache)) ;;
  ret {| dataset_info := info; tile_cache := cache' |}.

(** The lookup that precedes the read of a pixel:
    [if (!is_tile_in_cache(tile_key)) load_tile_cache(tile_key, cache)]. *)
Definition fetch_tile (tile_size : Z) (tile_key : TileKey)
    (dataset_cache : DatsetCache) : M DatsetCache :=
  if is_tile_in_cache tile_key (tile_cache dataset_cache)
  then ret dataset_cache
  else load_tile_cache tile_size tile_key dataset_cache.

(** The pixel index of a projected coordinate:
    [static_cast<size_t>((x - geotransform[0]) / geotransform[1])]. *)
Definition pixel_index (v origin step : double) : outcome Z :=
  double_to_size_t (d_div (d_sub v origin) step).

(** [Dataset::is_water(double, double, DatsetCache &)]. *)
Definition is_water_cache (tile_size : Z) (lon lat : double)
    (dataset_cache : DatsetCache) : M (bool * DatsetCache) :=
  let info := dataset_info dataset_cache in
  match transform info lon lat with
  | None => throw TransformError
  | Some (x, y) =>
      let g := geotransform info in
      pixel_x <~ lift (pixel_index x (g0 g) (g1 g)) ;;
      pixel_y <~ lift (pixel_index y (g3 g) (g5 g)) ;;
      if tile_size =? 0 then undefined
      else
        let tile_x := pixel_x / tile_size in
        let tile_y := pixel_y / tile_size in
        let tile_key := (to_int tile_x, to_int tile_y) in
        dc <~ fetch_tile tile_size tile_key dataset_cache ;;
        let '(tile_data, cache') :=
          get_tile_from_cache tile_key (tile_cache dc) in
        let local_x := pixel_x mod tile_size in
        let local_y := pixel_y mod tile_size in
        match tile_data !! Z.to_nat (wrap (local_y * tile_size + local_x)) with
        | None => undefined
        | Some v =>
            ret (v =? 1, {| dataset_info := info; tile_cache := cache' |})
        end
  end.

(** [Dataset::is_water(double, double, std::vector<DatsetCache> &)]. *)
Fixpoint is_water_collection (tile_size : Z) (lon lat : double)
    (dataset_cache_collection : list DatsetCache)
  : M (bool * list DatsetCache) :=
  match dataset_cache_collection with
  | [] => ret (false, [])
  | item :: rest =>
      if contains (bbox (dataset_info item)) lon lat then
        r <~ is_water_cache tile_size lon lat item ;;
        if fst r then ret (true, snd r :: rest)
        else
          r' <~ is_water_collection tile_size lon lat rest ;;
          ret (fst r', snd r :: snd r')
      else
        r' <~ is_water_collection tile_size lon lat rest ;;
        ret (fst r', item :: snd r')
  end.

(** ** parallel_for.hpp *)

(** The launch loop: the [(start, end)] captured by each thread, in the
    order the threads are created. *)
Fixpoint launch_threads (n : nat) (ix start size num_threads shift : Z)
  : list (Z * Z) :=
  match n with
  | O => []
  | S n' =>
      let end_ := if ix =? wrap (num_threads - 1) then size
                  else wrap (start + shift) in
      (start, end_) ::
        launch_threads n' (ix + 1) (wrap (start + shift)) size num_threads shift
  end.

(** The body of one thread: the worker inside [try], the exception kept in
    the shared [exception] slot.  What a failing worker had written is not
    kept: [parallel_for] rethrows and the buffer is never returned. *)
Definition thread_body {S : Type} (worker : Z → Z → S → M S)
    (range : Z * Z) (st : S * option error) : M (S * option error) :=
  match worker (fst range) (snd range) (fst st) with
  | (Done s', reads) => (Done (s', snd st), reads)
  | (Throw e, reads) => (Done (fst st, Some e), reads)
  | (Undefined, reads) => (Undefined, reads)
  end.

(** The threads, run to completion one after the other in creation order
    (they share nothing but the slot for the exception). *)
Fixpoint join_threads {S : Type} (worker : Z → Z → S → M S)
    (threads : list (Z * Z)) (st : S * option error) : M (S * option error) :=
  match threads with
  | [] => ret st
  | range :: rest =>
      st' <~ thread_body worker range st ;;
      join_threads worker rest st'
  end.

(** [parallel_for(worker, size, num_threads)];
    [hardware_concurrency] is what [std::thread::hardware_concurrency()]
    returns on the platform (0 when it is not computable). *)
Definition parallel_for {S : Type} (worker : Z → Z → S → M S)
    (size num_threads hardware_concurrency : Z) (s : S) : M S :=
  if num_threads =? 1 then worker 0 size s
  else
    let num_threads :=
      if num_threads =? 0 then hardware_concurrency else num_threads in
    let num_threads := Z.min num_threads size in
    if num_threads =? 0 then undefined
    else
      let shift := size / num_threads in
      let threads :=
        launch_threads (Z.to_nat num_threads) 0 0 size num_threads shift in
      st <~ join_threads worker threads (s, None) ;;
      match snd st with
      | Some e => throw e
      | None => ret (fst st)
      end.

(** ** The batch query *)

(** The loop of the worker lambda of [Dataset::is_water]: [n] iterations
    from index [ix]. *)
Fixpoint worker_loop (d : Dataset) (lon lat : list double) (n : nat) (ix : Z)
    (cache : list DatsetCache) (result : list bool) : M (list bool) :=
  match n with
  | O => ret result
  | S n' =>
      match lon !! Z.to_nat ix, lat !! Z.to_nat ix with
      | Some x, Some y =>
          r <~ is_water_collection (tile_size_ d) x y cache ;;
          if bool_decide (Z.to_nat ix < length result)%nat then
            worker_loop d lon lat n' (ix + 1) (snd r)
              (<[Z.to_nat ix := fst r]> result)
          else undefined
      | _, _ => undefined
      end
  end.

(** The worker lambda of [Dataset::is_water]. *)
Definition worker (d : Dataset) (lon lat : list double) (start end_ : Z)
    (result : list bool) : M (list bool) :=
  let cache := allocate_cache d in
  worker_loop d lon lat (Z.to_nat (end_ - start)) start cache result.

(** [Dataset::is_water(lon, lat, num_threads)]. *)
Definition is_water (d : Dataset) (lon lat : list double)
    (num_threads hardware_concurrency : Z) : M (list bool) :=
  if bool_decide (length lon ≠ length lat) then throw SizeMismatch
  else
    let result := repeat false (length lon) in
    parallel_for (worker d lon lat) (Z.of_nat (length lon)) num_threads
      hardware_concurrency result.

(** ** Invariants of the cache *)

(** Every key of the map is on the recency list, and the list is empty
    when the map is. *)
Definition covered (c : TileCache) : Prop :=
  (∀ k, is_Some (tile_map_ c !! k) → k ∈ access_order_ c) ∧
  (tile_map_ c = ∅ → access_order_ c = []).

(** The recency list holds each key of the map once and nothing else. *)
Definition synced (c : TileCache) : Prop :=
  NoDup (access_order_ c) ∧
  ∀ k, k ∈ access_order_ c ↔ is_Some (tile_map_ c !! k).

(** What a run of operations in the style of the query engine maintains:
    the list and the map are in step, and the list is the [max_tiles] most
    recent keys of the history [keys] of accesses. *)
Definition lru_state (max_tiles : Z) (keys : list TileKey) (c : TileCache)
  : Prop :=
  max_tiles_ c = max_tiles ∧
  synced c ∧
  access_order_ c = take (Z.to_nat max_tiles) (recency keys).

(** ** Concrete rasters *)

(** The double [m * 2^e]. *)
Definition dbl (m e : Z) : double := binary_normalize 53 1024 m e false.

(** A transformation between identical reference systems. *)
Definition identity_transform (x y : double) : option (double * double) :=
  Some (x, y).

(** A band given pixel by pixel: a read copies the window row by row into
    the top-left corner of the buffer; [i] is the position in the buffer. *)
Fixpoint copy_window (pixel : Z → Z → Z) (x_offset y_offset x_sz y_sz : Z)
    (buf_x : Z) (i : Z) (buffer : Tile) : Tile :=
  match buffer with
  | [] => []
  | old :: rest =>
      (if (i mod buf_x <? x_sz) && (i / buf_x <? y_sz)
       then pixel (x_offset + i mod buf_x) (y_offset + i / buf_x)
       else old)
      :: copy_window pixel x_offset y_offset x_sz y_sz buf_x (i + 1) rest
  end.

Definition band_of_pixels (pixel : Z → Z → Z)
    (x_offset y_offset x_sz y_sz : Z) (buffer : Tile) (buf_x buf_y : Z)
  : option Tile :=
  Some (copy_window pixel x_offset y_offset x_sz y_sz buf_x 0 buffer).

(** A north-up raster of [n] by [n] unit pixels with its corner at (0, n):
    geotransform [(0, 1, 0, n, 0, -1)]. *)
Definition square_raster (n : Z) (pixel : Z → Z → Z) : DatasetInfo :=
  let g := {| g0 := dbl 0 0; g1 := dbl 1 0; g2 := dbl 0 0;
              g3 := dbl n 0; g4 := dbl 0 0; g5 := dbl (-1) 0 |} in
  {| raster_io := band_of_pixels pixel;
     transform := identity_transform;
     geotransform := g;
     bbox := BBox_new g n n;
     x_size := n;
     y_size := n |}.

(** The raster of the end-to-end scenario: 512 by 512, a single 1 at pixel
    (300, 300). *)
Definition scenario_raster : DatasetInfo :=
  square_raster 512 (λ px py, if (px =? 300) && (py =? 300) then 1 else 0).

Definition scenario_dataset : Dataset :=
  {| base_datasets_ := [scenario_raster]; tile_size_ := 256;
     max_cache_size_ := 4096; espg_code_ := 4326 |}.

(** Two rasters over the same 4 by 4 extent: the first all land, the second
    all water. *)
Definition land_raster : DatasetInfo := square_raster 4 (λ _ _, 0).
Definition water_raster : DatasetInfo := square_raster 4 (λ _ _, 1).

Definition overlap_dataset : Dataset :=
  {| base_datasets_ := [land_raster; water_raster]; tile_size_ := 2;
     max_cache_size_ := 4; espg_code_ := 4326 |}.

(** ** Invariants of a worker's caches *)

(** What a query answers, whatever it leaves in the caches. *)
Definition verdict {A : Type} (m : M (bool * A)) : outcome bool :=
  outcome_map fst (fst m).

(** A cache of a raster is coherent when its list and map are in step, it
    holds no more tiles than its capacity, and every tile it holds is what
    a read of the raster returns for its key. *)
Definition coherent (tile_size : Z) (dc : DatsetCache) : Prop :=
  synced (tile_cache dc) ∧
  Z.of_nat (size (tile_map_ (tile_cache dc))) ≤ max_tiles_ (tile_cache dc) ∧
  ∀ k t, tile_map_ (tile_cache dc) !! k = Some t →
         fst (read_tile tile_size k (dataset_info dc)) = Done t.

(** Two caches of the same raster with the same capacity. *)
Definition same_raster (dc1 dc2 : DatsetCache) : Prop :=
  dataset_info dc1 = dataset_info dc2 ∧
  max_tiles_ (tile_cache dc1) = max_tiles_ (tile_cache dc2).

(** The cache of the same raster as a worker allocates it. *)
Definition cold (dc : DatsetCache) : DatsetCache :=
  {| dataset_info := dataset_info dc;
     tile_cache := TileCache_new (max_tiles_ (tile_cache dc)) |}.

(** The byte a query reads from the tile it has fetched. *)
Definition read_water (tile : option (list Z)) (i : nat) : outcome bool :=
  match default [] tile !! i with
  | None => Undefined
  | Some v => Done (v =? 1)
  end.

(** The mask verdict of one raster at a point: water exactly when the
    query against that raster completes with [true]. *)
Definition says_water (tile_size : Z) (lon lat : double) (item : DatsetCache)
  : bool :=
  match verdict (is_water_cache tile_size lon lat item) with
  | Done true => true
  | _ => false
  end.

(** The caches of a worker after it has answered the queries [points] one
    after the other, starting from [cs]; nothing when one of them does not
    complete. *)
Fixpoint caches_after (d : Dataset) (points : list (double * double))
    (cs : list DatsetCache) : option (list DatsetCache) :=
  match points with
  | [] => Some cs
  | (lon, lat) :: rest =>
      match fst (is_water_collection (tile_size_ d) lon lat cs) with
      | Done r => caches_after d rest (snd r)
      | _ => None
      end
  end.

(** A 4 by 4 raster with a single water pixel at (3, 3), queried through
    tiles of 2 by 2 pixels and a cache of one tile. *)
Definition small_dataset : Dataset :=
  {| base_datasets_ :=
       [square_raster 4 (λ px py, if (px =? 3) && (py =? 3) then 1 else 0)];
     tile_size_ := 2; max_cache_size_ := 1; espg_code_ := 4326 |}.



(** The loop of the worker with every query answered from newly allocated
    caches: what the loop computes when the caches are left out. *)
Fixpoint worker_loop_cold (d : Dataset) (lon lat : list double) (n : nat)
    (ix : Z) (result : list bool) : outcome (list bool) :=
  match n with
  | O => Done result
  | S n' =>
      match lon !! Z.to_nat ix, lat !! Z.to_nat ix with
      | Some x, Some y =>
          match verdict (is_water_collection (tile_size_ d) x y
                           (allocate_cache d)) with
          | Done b =>
              if bool_decide (Z.to_nat ix < length result)%nat then
                worker_loop_cold d lon lat n' (ix + 1)
                  (<[Z.to_nat ix := b]> result)
              else Undefined
          | Throw e => Throw e
          | Undefined => Undefined
          end
      | _, _ => Undefined
      end
  end.

(** ** Windows and tiles *)

(** A read window [(x_offset, y_offset, x_size, y_size)] that is not empty
    and lies within the raster. *)
Definition window_inside (info : DatasetInfo) (w : Z * Z * Z * Z) : Prop :=
  match w with
  | (x_offset, y_offset, x_sz, y_sz) =>
      0 ≤ x_offset ∧ 0 ≤ y_offset ∧ 1 ≤ x_sz ∧ 1 ≤ y_sz ∧
      x_offset + x_sz ≤ x_size info ∧ y_offset + y_sz ≤ y_size info
  end.

(** Every tile of the cache has [tile_size * tile_size] bytes. *)
Definition tiles_sized (tile_size : Z) (dc : DatsetCache) : Prop :=
  ∀ k t, tile_map_ (tile_cache dc) !! k = Some t →
         length t = Z.to_nat (tile_size * tile_size).

(** A read fills the buffer it is given: the buffer keeps its length. *)
Definition keeps_length (info : DatasetInfo) : Prop :=
  ∀ x_offset y_offset x_sz y_sz buffer buf_x buf_y t,
    raster_io info x_offset y_offset x_sz y_sz buffer buf_x buf_y = Some t →
    length t = length buffer.

(** ** Routing *)

(** A raster decides a query when its box contains the point and its own
    answer is anything but a completed "not water". *)
Definition decides (tile_size : Z) (lon lat : double) (item : DatsetCache)
  : bool :=
  contains (bbox (dataset_info item)) lon lat &&
  match verdict (is_water_cache tile_size lon lat item) with
  | Done false => false
  | _ => true
  end.

(** ** Chunks *)

(** The index range of thread [i] out of [num_threads] over [size] items:
    [size / num_threads] items each, the last thread taking what is left. *)
Definition chunk (size num_threads i : Z) : Z * Z :=
  (i * (size / num_threads),
   if i =? num_threads - 1 then size else (i + 1) * (size / num_threads)).

Definition chunks (size num_threads : Z) : list (Z * Z) :=
  chunk size num_threads <$> seqZ 0 num_threads.



(** * Properties *)

(** ** The tile cache *)

Section TileCacheFacts.

Implicit Types (key k : TileKey) (tile_data t : Tile) (c : TileCache).
Implicit Types (l order : list (Z * Z)) (m : gmap (Z * Z) (list Z)).

Lemma pop_back_snoc l k : pop_back (l ++ [k]) = Some (k, l).
Proof.
  induction l as [|x l IH]; simpl; [done|]. by rewrite IH.
Qed.

Lemma pop_back_Some l k order : pop_back l = Some (k, order) → l = order ++ [k].
Proof.
  revert k order. induction l as [|x l IH]; intros k order; simpl; [done|].
  destruct (pop_back l) as [[b r]|] eqn:E.
  - intros [= <- <-]. by rewrite (IH b r eq_refl).
  - intros [= <- <-]. destruct l as [|y l]; [done|].
    simpl in E. by destruct (pop_back l) as [[? ?]|].
Qed.

Lemma pop_back_None l : pop_back l = None ↔ l = [].
Proof.
  split; [|by intros ->].
  destruct l as [|x l]; [done|]. simpl. by destruct (pop_back l) as [[? ?]|].
Qed.

Lemma elem_of_list_remove k key l : k ∈ list_remove key l ↔ k ∈ l ∧ k ≠ key.
Proof. unfold list_remove. rewrite list_elem_of_filter. tauto. Qed.

Lemma list_remove_cons_eq key l :
  list_remove key (key :: l) = list_remove key l.
Proof. unfold list_remove. by rewrite filter_cons_False by naive_solver. Qed.

Lemma list_remove_cons_ne key k l :
  k ≠ key → list_remove key (k :: l) = k :: list_remove key l.
Proof. intros H. unfold list_remove. by rewrite filter_cons_True. Qed.

Lemma list_remove_absent key l : key ∉ l → list_remove key l = l.
Proof.
  induction l as [|x l IH]; intros H; [done|].
  apply not_elem_of_cons in H as [Hx Hl].
  rewrite list_remove_cons_ne by done. f_equal. by apply IH.
Qed.

Lemma is_tile_in_cache_true key c :
  is_tile_in_cache key c = true ↔ is_Some (tile_map_ c !! key).
Proof. unfold is_tile_in_cache. by rewrite bool_decide_eq_true. Qed.

Lemma is_tile_in_cache_false key c :
  is_tile_in_cache key c = false ↔ tile_map_ c !! key = None.
Proof.
  unfold is_tile_in_cache. rewrite bool_decide_eq_false.
  by rewrite eq_None_not_Some.
Qed.

Lemma get_max_tiles key c :
  max_tiles_ (snd (get_tile_from_cache key c)) = max_tiles_ c.
Proof.
  unfold get_tile_from_cache. by destruct (map_subscript key (tile_map_ c)).
Qed.

Lemma get_access_order key c :
  access_order_ (snd (get_tile_from_cache key c))
  = key :: list_remove key (access_order_ c).
Proof.
  unfold get_tile_from_cache. by destruct (map_subscript key (tile_map_ c)).
Qed.

Lemma get_present key c t :
  tile_map_ c !! key = Some t →
  fst (get_tile_from_cache key c) = t ∧
  tile_map_ (snd (get_tile_from_cache key c)) = tile_map_ c.
Proof.
  intros H. unfold get_tile_from_cache, map_subscript. by rewrite H.
Qed.

Lemma get_absent key c :
  tile_map_ c !! key = None →
  fst (get_tile_from_cache key c) = [] ∧
  tile_map_ (snd (get_tile_from_cache key c)) = <[key := []]> (tile_map_ c).
Proof.
  intros H. unfold get_tile_from_cache, map_subscript. by rewrite H.
Qed.

End TileCacheFacts.

(** C2 (as the code has it).  [get_tile_from_cache] has no failure: for a
    key that is present it returns the stored tile, moves the key to the
    front of the recency list and leaves the map as it is; for a key that
    is absent it returns an empty tile, which it has stored under the key,
    and the key is at the front of the recency list all the same. *)
Theorem get_tile_from_cache_spec (key : TileKey) (c : TileCache) :
  max_tiles_ (snd (get_tile_from_cache key c)) = max_tiles_ c ∧
  access_order_ (snd (get_tile_from_cache key c))
    = key :: filter (λ k, k ≠ key) (access_order_ c) ∧
  match tile_map_ c !! key with
  | Some t =>
      fst (get_tile_from_cache key c) = t ∧
      tile_map_ (snd (get_tile_from_cache key c)) = tile_map_ c
  | None =>
      fst (get_tile_from_cache key c) = [] ∧
      tile_map_ (snd (get_tile_from_cache key c)) = <[key := []]> (tile_map_ c)
  end.
Proof.
  split; [apply get_max_tiles|]. split; [apply get_access_order|].
  destruct (tile_map_ c !! key) as [t|] eqn:E.
  - by apply get_present.
  - by apply get_absent.
Qed.

(** C2, the claim as stated fails: on the empty cache the lookup of an
    absent key does not fail; it returns an empty tile and the cache then
    contains the key. *)
Lemma get_tile_from_cache_absent_counterexample :
  is_tile_in_cache (0, 0) (TileCache_new 4) = false ∧
  fst (get_tile_from_cache (0, 0) (TileCache_new 4)) = [] ∧
  is_tile_in_cache (0, 0) (snd (get_tile_from_cache (0, 0) (TileCache_new 4)))
    = true.
Proof. vm_compute. auto. Qed.

(** C3 (as the code has it).  [add_tile_to_cache] evicts the key at the
    back of the recency list whenever the map holds at least [max_tiles]
    entries, be the added key present or not; below capacity it inserts or
    overwrites without evicting; whenever it completes, the added key is at
    the front of the recency list and maps to the added tile. *)
Theorem add_tile_to_cache_spec (key : TileKey) (tile_data : Tile)
    (c : TileCache) :
  (∀ order back,
      max_tiles_ c ≤ Z.of_nat (size (tile_map_ c)) →
      access_order_ c = order ++ [back] →
      add_tile_to_cache key tile_data c =
        Done {| max_tiles_ := max_tiles_ c;
                tile_map_ := <[key := tile_data]> (delete back (tile_map_ c));
                access_order_ := key :: order |}) ∧
  (Z.of_nat (size (tile_map_ c)) < max_tiles_ c →
      add_tile_to_cache key tile_data c =
        Done {| max_tiles_ := max_tiles_ c;
                tile_map_ := <[key := tile_data]> (tile_map_ c);
                access_order_ := key :: access_order_ c |}) ∧
  (∀ c', add_tile_to_cache key tile_data c = Done c' →
      tile_map_ c' !! key = Some tile_data ∧
      ∃ order, access_order_ c' = key :: order).
Proof.
  unfold add_tile_to_cache. split; [|split].
  - intros order back Hfull Horder.
    rewrite (proj2 (Z.leb_le _ _) Hfull), Horder, pop_back_snoc. done.
  - intros Hroom. by rewrite (proj2 (Z.leb_gt _ _) Hroom).
  - intros c'. destruct (max_tiles_ c <=? _).
    + destruct (pop_back (access_order_ c)) as [[dk order]|]; [|done].
      intros [= <-]; simpl. rewrite lookup_insert_eq. eauto.
    + intros [= <-]; simpl. rewrite lookup_insert_eq. eauto.
Qed.

(** A full cache of capacity 1: the addition evicts the only key. *)
Lemma add_tile_to_cache_spec_witness :
  add_tile_to_cache (0, 1) [2]
    {| max_tiles_ := 1; tile_map_ := {[(0, 0) := [1]]};
       access_order_ := [(0, 0)] |}
  = Done {| max_tiles_ := 1;
            tile_map_ := <[(0, 1) := [2]]> (delete (0, 0) {[(0, 0) := [1]]});
            access_order_ := [(0, 1)] |}.
Proof.
  refine (proj1 (add_tile_to_cache_spec (0, 1) [2]
                   {| max_tiles_ := 1; tile_map_ := {[(0, 0) := [1]]};
                      access_order_ := [(0, 0)] |}) [] (0, 0) _ _).
  - vm_compute. discriminate.
  - reflexivity.
Defined.

(** C3, the claim as stated fails: with capacity 2 and the keys (0,0) and
    (0,1) cached, adding (0,1) again evicts (0,0), though the added key was
    present, and leaves (0,1) twice on the recency list. *)
Lemma add_tile_to_cache_present_counterexample :
  ∃ c c',
    run_ops [OpPut (0, 0) [1]; OpPut (0, 1) [2]] (TileCache_new 2) = Done c ∧
    is_tile_in_cache (0, 0) c = true ∧
    is_tile_in_cache (0, 1) c = true ∧
    add_tile_to_cache (0, 1) [3] c = Done c' ∧
    is_tile_in_cache (0, 0) c' = false ∧
    access_order_ c' = [(0, 1); (0, 1)].
Proof.
  eexists. eexists. split; [vm_compute; reflexivity|].
  vm_compute. repeat split; reflexivity.
Qed.

Section Covered.

Implicit Types (key k : TileKey) (c : TileCache).

Lemma covered_new n : covered (TileCache_new n).
Proof.
  split; [|done]. intros k [t Ht]. simpl in Ht.
  by rewrite lookup_empty in Ht.
Qed.

Lemma covered_get key c : covered c → covered (snd (get_tile_from_cache key c)).
Proof.
  intros [Hcov _]. unfold get_tile_from_cache, map_subscript.
  destruct (tile_map_ c !! key) as [t|] eqn:E; simpl; split; simpl.
  - intros k Hk. destruct (decide (k = key)) as [->|Hne]; [left|].
    right. apply elem_of_list_remove. auto.
  - intros Hm. by rewrite Hm, lookup_empty in E.
  - intros k Hk. destruct (decide (k = key)) as [->|Hne]; [left|].
    right. apply elem_of_list_remove. split; [|done].
    apply Hcov. by rewrite lookup_insert_ne in Hk.
  - intros H. by apply insert_non_empty in H.
Qed.

Lemma covered_add key t c c' :
  covered c → add_tile_to_cache key t c = Done c' → covered c'.
Proof.
  intros [Hcov _]. unfold add_tile_to_cache.
  destruct (max_tiles_ c <=? _).
  - destruct (pop_back (access_order_ c)) as [[dk order]|] eqn:E; [|done].
    apply pop_back_Some in E. intros [= <-]. split; simpl.
    + intros k Hk. destruct (decide (k = key)) as [->|Hne]; [left|].
      right. rewrite lookup_insert_ne in Hk by done.
      destruct (decide (k = dk)) as [->|Hdk].
      { rewrite lookup_delete_eq in Hk. by destruct Hk. }
      rewrite lookup_delete_ne in Hk by done.
      apply Hcov in Hk. rewrite E in Hk.
      apply elem_of_app in Hk as [Hk|Hk]; [done|].
      apply list_elem_of_singleton in Hk. done.
    + intros H. by apply insert_non_empty in H.
  - intros [= <-]. split; simpl.
    + intros k Hk. destruct (decide (k = key)) as [->|Hne]; [left|].
      right. apply Hcov. by rewrite lookup_insert_ne in Hk.
    + intros H. by apply insert_non_empty in H.
Qed.

Lemma max_tiles_apply_op op c c' :
  apply_op op c = Done c' → max_tiles_ c' = max_tiles_ c.
Proof.
  destruct op as [k|k|k t]; simpl.
  - by intros [= <-].
  - intros [= <-]. apply get_max_tiles.
  - unfold add_tile_to_cache. destruct (max_tiles_ c <=? _).
    + destruct (pop_back _) as [[? ?]|]; [|done]. by intros [= <-].
    + by intros [= <-].
Qed.

Lemma covered_apply_op op c c' : covered c → apply_op op c = Done c' → covered c'.
Proof.
  intros Hc. destruct op as [k|k|k t]; simpl.
  - by intros [= <-].
  - intros [= <-]. by apply covered_get.
  - by apply covered_add.
Qed.

Lemma covered_run_ops ops c c' :
  covered c → run_ops ops c = Done c' →
  covered c' ∧ max_tiles_ c' = max_tiles_ c.
Proof.
  revert c. induction ops as [|op ops IH]; intros c Hc; simpl.
  - by intros [= <-].
  - destruct (apply_op op c) as [c1| |] eqn:E; [|done..].
    intros Hrun. destruct (IH c1) as [H1 H2]; [by eapply covered_apply_op|done|].
    split; [done|]. rewrite H2. by eapply max_tiles_apply_op.
Qed.

Lemma add_undefined_iff key t c :
  covered c → 0 ≤ max_tiles_ c →
  add_tile_to_cache key t c = Undefined ↔ max_tiles_ c = 0 ∧ tile_map_ c = ∅.
Proof.
  intros [Hcov Hemp] Hmax. unfold add_tile_to_cache. split.
  - destruct (max_tiles_ c <=? _) eqn:Hfull; [|done].
    destruct (pop_back (access_order_ c)) as [[? ?]|] eqn:E; [done|].
    intros _. apply pop_back_None in E.
    assert (tile_map_ c = ∅) as Hm.
    { apply map_empty. intros k. apply eq_None_not_Some. intros Hk.
      apply Hcov in Hk. rewrite E in Hk. by apply elem_of_nil in Hk. }
    split; [|done]. apply Z.leb_le in Hfull.
    rewrite Hm, map_size_empty in Hfull. simpl in Hfull. lia.
  - intros [H0 Hm]. rewrite H0, Hm, map_size_empty. simpl.
    by rewrite (Hemp Hm).
Qed.

End Covered.

(** C10.  On a cache constructed with capacity 0, [add_tile_to_cache]
    takes the eviction branch and reads [back()] of the empty recency list.
    In every state that a sequence of operations reaches from a new cache,
    this is the only way for it to be undefined: it is defined exactly when
    the capacity is at least 1 or the cache is not empty. *)
Theorem add_tile_to_cache_safe_iff (key : TileKey) (tile_data : Tile) :
  add_tile_to_cache key tile_data (TileCache_new 0) = Undefined ∧
  ∀ max_tiles ops c,
    0 ≤ max_tiles →
    run_ops ops (TileCache_new max_tiles) = Done c →
    (add_tile_to_cache key tile_data c = Undefined
       ↔ max_tiles = 0 ∧ tile_map_ c = ∅) ∧
    ((∃ c', add_tile_to_cache key tile_data c = Done c')
       ↔ 1 ≤ max_tiles ∨ tile_map_ c ≠ ∅).
Proof.
  split; [done|]. intros n ops c Hn Hrun.
  destruct (covered_run_ops ops _ c (covered_new n) Hrun) as [Hcov Hmax].
  simpl in Hmax.
  assert (add_tile_to_cache key tile_data c = Undefined
            ↔ n = 0 ∧ tile_map_ c = ∅) as Hiff.
  { rewrite <- Hmax. apply add_undefined_iff; [done|lia]. }
  split; [done|]. split.
  - intros [c' Hc']. destruct (decide (n = 0)) as [->|]; [|left; lia].
    right. intros Hm. rewrite (proj2 Hiff) in Hc'; done.
  - intros Hsafe.
    destruct (add_tile_to_cache key tile_data c) as [c'| e|] eqn:E.
    + by exists c'.
    + exfalso. revert E. unfold add_tile_to_cache.
      destruct (max_tiles_ c <=? _); [|done].
      by destruct (pop_back _) as [[? ?]|].
    + exfalso. destruct Hiff as [Hiff _].
      destruct (Hiff eq_refl) as [-> Hm]. destruct Hsafe; [lia|done].
Qed.

(** A capacity-0 cache that a lookup has filled: the next addition evicts
    and is defined. *)
Lemma add_tile_to_cache_safe_iff_witness :
  (add_tile_to_cache (1, 1) [7] (snd (get_tile_from_cache (0, 0) (TileCache_new 0)))
     = Undefined
   ↔ 0 = 0 ∧ tile_map_ (snd (get_tile_from_cache (0, 0) (TileCache_new 0))) = ∅) ∧
  ((∃ c', add_tile_to_cache (1, 1) [7]
            (snd (get_tile_from_cache (0, 0) (TileCache_new 0))) = Done c')
   ↔ 1 ≤ 0 ∨ tile_map_ (snd (get_tile_from_cache (0, 0) (TileCache_new 0))) ≠ ∅).
Proof.
  apply (proj2 (add_tile_to_cache_safe_iff (1, 1) [7]) 0 [OpGet (0, 0)]).
  - lia.
  - reflexivity.
Defined.

Section Recency.

Implicit Types (key k : TileKey) (c : TileCache).
Implicit Types (l order : list (Z * Z)).

Lemma NoDup_touch l k : NoDup l → NoDup (touch l k).
Proof.
  intros Hl. unfold touch. apply NoDup_cons. split.
  - rewrite elem_of_list_remove. tauto.
  - by apply NoDup_filter.
Qed.

Lemma recency_snoc keys k : recency (keys ++ [k]) = touch (recency keys) k.
Proof. unfold recency. by rewrite fold_left_app. Qed.

Lemma NoDup_recency keys : NoDup (recency keys).
Proof.
  induction keys as [|k keys IH] using rev_ind.
  - apply NoDup_nil_2.
  - rewrite recency_snoc. by apply NoDup_touch.
Qed.

Lemma recency_elem_of keys k : k ∈ recency keys ↔ k ∈ keys.
Proof.
  induction keys as [|x keys IH] using rev_ind.
  - done.
  - rewrite recency_snoc, elem_of_app, list_elem_of_singleton. unfold touch.
    rewrite elem_of_cons, elem_of_list_remove, IH.
    destruct (decide (k = x)); tauto.
Qed.

Lemma recency_NoDup keys : NoDup keys → recency keys = reverse keys.
Proof.
  induction keys as [|x keys IH] using rev_ind; [done|].
  intros Hnd. apply NoDup_app in Hnd as (Hkeys & Hx & _).
  rewrite recency_snoc, reverse_snoc. unfold touch. f_equal.
  rewrite list_remove_absent, IH; [done..|].
  rewrite recency_elem_of. intros Hin. apply (Hx x Hin). left.
Qed.

(** Removing a key that is not among the first [S n] elements does not
    change the first [n]. *)
Lemma take_list_remove_absent l k (n : nat) :
  k ∉ take (S n) l → take n (list_remove k l) = take n l.
Proof.
  revert n. induction l as [|x l IH]; intros n; [done|].
  simpl. intros Hk. apply not_elem_of_cons in Hk as [Hx Hl].
  rewrite list_remove_cons_ne by done.
  destruct n as [|n]; [done|]. simpl. f_equal. by apply IH.
Qed.

(** Removing a key that is among the first [S n] elements and then taking
    [n] is removing it from the first [S n]. *)
Lemma list_remove_take_present l k (n : nat) :
  NoDup l → k ∈ take (S n) l →
  list_remove k (take (S n) l) = take n (list_remove k l).
Proof.
  revert n. induction l as [|x l IH]; intros n Hnd.
  { simpl. by intros ?%elem_of_nil. }
  apply NoDup_cons in Hnd as [Hx Hnd]. simpl. intros Hk.
  destruct (decide (x = k)) as [->|Hne].
  - rewrite !list_remove_cons_eq.
    rewrite !list_remove_absent; [done..|].
    intros Hin. apply Hx. by eapply subseteq_take.
  - apply elem_of_cons in Hk as [->|Hk]; [done|].
    rewrite !list_remove_cons_ne by done.
    destruct n as [|n]; [by apply elem_of_nil in Hk|].
    simpl. f_equal. by apply IH.
Qed.

End Recency.

Section LruInvariant.

Implicit Types (key k : TileKey) (c : TileCache).

Lemma synced_new n : synced (TileCache_new n).
Proof.
  split; simpl; [apply NoDup_nil_2|]. intros k. rewrite lookup_empty.
  split; [by intros ?%elem_of_nil|by intros [? ?]].
Qed.

Lemma synced_Permutation c :
  synced c → access_order_ c ≡ₚ (map_to_list (tile_map_ c)).*1.
Proof.
  intros [Hnd Hel]. apply NoDup_Permutation; [done|apply NoDup_fst_map_to_list|].
  intros k. rewrite Hel, list_elem_of_fmap. split.
  - intros [t Ht]. exists (k, t). split; [done|]. by apply elem_of_map_to_list.
  - intros [[k' t] [-> Ht]]. exists t. by apply elem_of_map_to_list.
Qed.

Lemma synced_size c : synced c → size (tile_map_ c) = length (access_order_ c).
Proof.
  intros Hs. rewrite (Permutation_length (synced_Permutation c Hs)).
  by rewrite length_fmap, length_map_to_list.
Qed.

Lemma synced_get key c :
  synced c → is_Some (tile_map_ c !! key) →
  synced (snd (get_tile_from_cache key c)).
Proof.
  intros [Hnd Hel] [t Ht]. unfold get_tile_from_cache, map_subscript.
  rewrite Ht. simpl. split; simpl.
  - by apply (NoDup_touch _ key).
  - intros k. rewrite elem_of_cons, elem_of_list_remove, Hel.
    destruct (decide (k = key)) as [->|]; [|tauto].
    split; [eauto|tauto].
Qed.

Lemma synced_add key t c c' :
  synced c → tile_map_ c !! key = None →
  add_tile_to_cache key t c = Done c' → synced c'.
Proof.
  intros [Hnd Hel] Hnone.
  assert (key ∉ access_order_ c) as Hkey.
  { rewrite Hel, Hnone. by intros [? ?]. }
  unfold add_tile_to_cache. destruct (max_tiles_ c <=? _).
  - destruct (pop_back (access_order_ c)) as [[dk order]|] eqn:E; [|done].
    apply pop_back_Some in E. intros [= <-]. rewrite E in Hnd, Hel, Hkey.
    apply NoDup_app in Hnd as (Hord & Hdk & _).
    apply not_elem_of_app in Hkey as [Hkey _].
    split; simpl.
    + apply NoDup_cons. done.
    + intros k. rewrite elem_of_cons, lookup_insert_is_Some, lookup_delete_is_Some.
      rewrite <- Hel, elem_of_app, list_elem_of_singleton.
      destruct (decide (k = key)) as [->|]; [tauto|].
      destruct (decide (k = dk)) as [->|].
      * split; [|intuition congruence]. intros [?|Hin]; [done|].
        exfalso. apply (Hdk dk Hin). left.
      * intuition congruence.
  - intros [= <-]. split; simpl.
    + apply NoDup_cons. done.
    + intros k. rewrite elem_of_cons, lookup_insert_is_Some, <- Hel.
      destruct (decide (k = key)) as [->|]; intuition congruence.
Qed.

Lemma lru_state_step n keys op c :
  1 ≤ n → lru_state n keys c → op_ok op c = true →
  ∃ c', apply_op op c = Done c' ∧ lru_state n (keys ++ accessed [op]) c'.
Proof.
  intros Hn (Hmax & Hs & Hord) Hok.
  assert (∃ m, Z.to_nat n = S m) as [m Hm] by (exists (Z.to_nat (n - 1)); lia).
  destruct op as [k|k|k t]; simpl in *.
  - exists c. rewrite app_nil_r. done.
  - apply is_tile_in_cache_true in Hok.
    eexists. split; [done|]. split; [|split].
    + rewrite <- Hmax. apply get_max_tiles.
    + by apply synced_get.
    + rewrite get_access_order.
      rewrite recency_snoc, Hm. unfold touch. simpl. f_equal.
      rewrite Hord, Hm.
      apply list_remove_take_present; [apply NoDup_recency|].
      rewrite <- Hm, <- Hord. by apply Hs.
  - apply negb_true_iff, is_tile_in_cache_false in Hok.
    assert (k ∉ access_order_ c) as Hk.
    { rewrite (proj2 Hs), Hok. by intros [? ?]. }
    pose proof (synced_size c Hs) as Hsz.
    destruct (add_tile_to_cache k t c) as [c'| |] eqn:Hadd.
    + exists c'. split; [done|]. split; [|split].
      * rewrite <- Hmax. by eapply (max_tiles_apply_op (OpPut k t)).
      * by eapply synced_add.
      * rewrite recency_snoc, Hm. unfold touch. simpl.
        revert Hadd. unfold add_tile_to_cache.
        destruct (max_tiles_ c <=? _) eqn:Hfull.
        -- destruct (pop_back (access_order_ c)) as [[dk order]|] eqn:E; [|done].
           apply pop_back_Some in E. intros [= <-]. simpl. f_equal.
           apply Z.leb_le in Hfull.
           assert (length (access_order_ c) = S m) as Hlen.
           { apply Nat.le_antisymm.
             - rewrite Hord, length_take. lia.
             - lia. }
           rewrite take_list_remove_absent by (by rewrite <- Hm, <- Hord).
           rewrite E, length_app in Hlen. simpl in Hlen.
           assert (order = take m (access_order_ c)) as ->.
           { rewrite E. rewrite take_app_length'; [done|lia]. }
           rewrite Hord, take_take. f_equal. lia.
        -- intros [= <-]. simpl. f_equal. apply Z.leb_gt in Hfull.
           assert (length (recency keys) ≤ m)%nat as Hlen.
           { assert (length (access_order_ c) ≤ m)%nat as H1 by lia.
             rewrite Hord, length_take in H1. lia. }
           rewrite Hord, take_ge in Hk by lia.
           rewrite list_remove_absent by done.
           rewrite Hord, !take_ge; [done|lia..].
    + exfalso. revert Hadd. unfold add_tile_to_cache.
      destruct (max_tiles_ c <=? _); [|done].
      by destruct (pop_back _) as [[? ?]|].
    + exfalso. revert Hadd. unfold add_tile_to_cache.
      destruct (max_tiles_ c <=? _) eqn:Hfull; [|done].
      destruct (pop_back (access_order_ c)) as [[? ?]|] eqn:E; [done|].
      apply pop_back_None in E. apply Z.leb_le in Hfull.
      rewrite Hsz, E in Hfull. simpl in Hfull. lia.
Qed.

Lemma lru_state_run n ops :
  1 ≤ n → ∀ keys c,
  lru_state n keys c → ops_ok ops c = true →
  ∃ c', run_ops ops c = Done c' ∧ lru_state n (keys ++ accessed ops) c'.
Proof.
  intros Hn. induction ops as [|op ops IH]; intros keys c Hc Hok.
  - exists c. by rewrite app_nil_r.
  - simpl in Hok. apply andb_true_iff in Hok as [Hop Hrest].
    destruct (lru_state_step n keys op c Hn Hc Hop) as (c1 & Happ & Hc1).
    cbn [run_ops]. rewrite Happ in Hrest |- *.
    destruct (IH _ c1 Hc1 Hrest) as (c' & Hrun & Hc').
    exists c'. split; [done|].
    replace (keys ++ accessed (op :: ops))
      with ((keys ++ accessed [op]) ++ accessed ops); [done|].
    rewrite <- app_assoc. f_equal.
    change (op :: ops) with ([op] ++ ops). unfold accessed. by rewrite omap_app.
Qed.

End LruInvariant.

(** C4, the claim as stated fails for arbitrary sequences of operations.
    With capacity 1, a lookup of an absent key after an addition leaves two
    entries in the map; with capacity 2, adding the same key twice leaves
    it twice on the recency list, which is then no permutation of the keys
    of the map. *)
Lemma cache_invariant_counterexample :
  (∃ c, run_ops [OpPut (0, 0) [1]; OpGet (0, 1)] (TileCache_new 1) = Done c ∧
        ¬ (Z.of_nat (size (tile_map_ c)) ≤ 1)) ∧
  (∃ c, run_ops [OpPut (0, 0) [1]; OpPut (0, 0) [1]] (TileCache_new 2) = Done c ∧
        ¬ (access_order_ c ≡ₚ (map_to_list (tile_map_ c)).*1)).
Proof.
  split.
  - eexists. split; [vm_compute; reflexivity|].
    intros Hle. vm_compute in Hle. by apply Hle.
  - eexists. split; [vm_compute; reflexivity|].
    intros Hperm. apply Permutation_length in Hperm.
    vm_compute in Hperm. discriminate.
Qed.

(** C4 (as the code has it).  For every sequence of operations that looks
    up only keys that are present and adds only keys that are absent, run
    from an empty cache of capacity [max_tiles ≥ 1]: the run completes, the
    map holds at most [max_tiles] entries, the recency list is a permutation
    of the keys of the map, and it is the [max_tiles] most recently accessed
    keys, most recent first; so once [max_tiles] or more distinct keys have
    been accessed the cache holds exactly [max_tiles] tiles. *)
Theorem cache_lru_invariant (max_tiles : Z) (ops : list cache_op) :
  1 ≤ max_tiles →
  ops_ok ops (TileCache_new max_tiles) = true →
  ∃ c,
    run_ops ops (TileCache_new max_tiles) = Done c ∧
    Z.of_nat (size (tile_map_ c)) ≤ max_tiles ∧
    access_order_ c ≡ₚ (map_to_list (tile_map_ c)).*1 ∧
    access_order_ c = take (Z.to_nat max_tiles) (recency (accessed ops)) ∧
    (NoDup (accessed ops) →
       access_order_ c = take (Z.to_nat max_tiles) (reverse (accessed ops))) ∧
    (max_tiles ≤ Z.of_nat (length (recency (accessed ops))) →
       Z.of_nat (size (tile_map_ c)) = max_tiles).
Proof.
  intros Hn Hok.
  destruct (lru_state_run max_tiles ops Hn [] (TileCache_new max_tiles))
    as (c & Hrun & Hmax & Hs & Hord); [|done|].
  { split; [done|]. split; [apply synced_new|]. simpl.
    by destruct (Z.to_nat max_tiles). }
  simpl in Hord. exists c. split; [done|].
  pose proof (synced_size c Hs) as Hsz.
  assert (length (access_order_ c)
          = Nat.min (Z.to_nat max_tiles) (length (recency (accessed ops))))
    as Hlen by (by rewrite Hord, length_take).
  split; [lia|]. split; [by apply synced_Permutation|]. split; [done|].
  split; [|lia]. intros Hnd. by rewrite <- recency_NoDup.
Qed.

(** Capacity 2; three distinct tiles are loaded, the first is looked up
    again before the third arrives: (0,1) is evicted, not (0,0). *)
Lemma cache_lru_invariant_witness :
  ∃ c,
    run_ops [OpPut (0, 0) [1]; OpPut (0, 1) [2]; OpContains (0, 0);
             OpGet (0, 0); OpPut (0, 2) [3]] (TileCache_new 2) = Done c ∧
    Z.of_nat (size (tile_map_ c)) ≤ 2 ∧
    access_order_ c ≡ₚ (map_to_list (tile_map_ c)).*1 ∧
    access_order_ c = [(0, 2); (0, 0)] ∧
    (NoDup [(0, 0); (0, 1); (0, 0); (0, 2)] →
       access_order_ c = [(0, 2); (0, 0)]) ∧
    (2 ≤ 3 → Z.of_nat (size (tile_map_ c)) = 2).
Proof.
  apply (cache_lru_invariant 2
           [OpPut (0, 0) [1]; OpPut (0, 1) [2]; OpContains (0, 0);
            OpGet (0, 0); OpPut (0, 2) [3]]).
  - lia.
  - reflexivity.
Defined.

(** ** The computations *)

Section Monad.

Context {A B : Type}.

Lemma fst_bind (m : M A) (f : A → M B) :
  fst (bind m f) = match fst m with
                   | Done a => fst (f a)
                   | Throw e => Throw e
                   | Undefined => Undefined
                   end.
Proof. destruct m as [[a|e|] l]; simpl; [destruct (f a)|..]; done. Qed.

Lemma bind_Done (m : M A) (f : A → M B) b l :
  bind m f = (Done b, l) →
  ∃ a l1 l2, m = (Done a, l1) ∧ f a = (Done b, l2) ∧ l = l1 ++ l2.
Proof.
  destruct m as [[a|e|] l1]; simpl; [|done..].
  destruct (f a) as [o l2] eqn:E. intros [= -> <-]. by exists a, l1, l2.
Qed.

Lemma bind_lift (o : outcome A) (f : A → M B) :
  bind (lift o) f = match o with
                    | Done a => f a
                    | Throw e => throw e
                    | Undefined => undefined
                    end.
Proof. destruct o as [a|e|]; simpl; [by destruct (f a)|done..]. Qed.

End Monad.

(** ** Queries against one raster *)

Section CachedQuery.

Implicit Types (key k : Z * Z) (dc : DatsetCache) (info : DatasetInfo).

Lemma size_pos_of_lookup (m : gmap (Z * Z) (list Z)) k t :
  m !! k = Some t → (1 ≤ size m)%nat.
Proof.
  intros Hk. destruct (size m) eqn:E; [|lia].
  apply map_size_empty_iff in E. by rewrite E, lookup_empty in Hk.
Qed.

Lemma coherent_cold tile_size dc :
  0 ≤ max_tiles_ (tile_cache dc) → coherent tile_size (cold dc).
Proof.
  intros Hmax. split; [apply synced_new|]. split; simpl.
  - by rewrite map_size_empty.
  - intros k t. by rewrite lookup_empty.
Qed.

Lemma coherent_max_nonneg tile_size dc :
  coherent tile_size dc → 0 ≤ max_tiles_ (tile_cache dc).
Proof. intros (_ & Hsz & _). lia. Qed.

(** What the fetch of a tile leaves under its key: the tile as read from
    the raster, whether it was cached or not. *)
Lemma fetch_lookup tile_size key dc :
  coherent tile_size dc →
  outcome_map (λ dc', tile_map_ (tile_cache dc') !! key)
    (fst (fetch_tile tile_size key dc))
  = match fst (read_tile tile_size key (dataset_info dc)) with
    | Done t => if max_tiles_ (tile_cache dc) <=? 0 then Undefined
                else Done (Some t)
    | Throw e => Throw e
    | Undefined => Undefined
    end.
Proof.
  intros (Hs & Hsz & Hdata). unfold fetch_tile.
  destruct (is_tile_in_cache key (tile_cache dc)) eqn:Hhit.
  - apply is_tile_in_cache_true in Hhit as [t Ht].
    rewrite (Hdata key t Ht). pose proof (size_pos_of_lookup _ _ _ Ht).
    rewrite (proj2 (Z.leb_gt _ _)) by lia. simpl. by rewrite Ht.
  - unfold load_tile_cache. rewrite fst_bind.
    destruct (fst (read_tile tile_size key (dataset_info dc))) as [t|e|];
      [|done..].
    rewrite fst_bind. simpl. pose proof (synced_size _ Hs) as Hlen.
    unfold add_tile_to_cache.
    destruct (max_tiles_ (tile_cache dc) <=? Z.of_nat _) eqn:Hfull.
    + destruct (pop_back (access_order_ (tile_cache dc))) as [[dk order]|] eqn:E.
      * apply pop_back_Some in E. rewrite E, length_app in Hlen. simpl in Hlen.
        rewrite (proj2 (Z.leb_gt _ _)) by lia. simpl.
        by rewrite lookup_insert_eq.
      * apply pop_back_None in E. rewrite E in Hlen. simpl in Hlen.
        apply Z.leb_le in Hfull. rewrite (proj2 (Z.leb_le _ _)) by lia. done.
    + apply Z.leb_gt in Hfull. rewrite (proj2 (Z.leb_gt _ _)) by lia. simpl.
      by rewrite lookup_insert_eq.
Qed.

Lemma get_fst_lookup key (c : TileCache) :
  fst (get_tile_from_cache key c) = default [] (tile_map_ c !! key).
Proof.
  destruct (tile_map_ c !! key) as [t|] eqn:E; simpl.
  - by apply get_present.
  - by apply get_absent.
Qed.

(** The answer of a query in terms of what the fetch leaves under the key. *)
Lemma is_water_cache_verdict tile_size lon lat dc :
  verdict (is_water_cache tile_size lon lat dc)
  = match transform (dataset_info dc) lon lat with
    | None => Throw TransformError
    | Some (x, y) =>
        let g := geotransform (dataset_info dc) in
        match pixel_index x (g0 g) (g1 g) with
        | Done pixel_x =>
            match pixel_index y (g3 g) (g5 g) with
            | Done pixel_y =>
                if tile_size =? 0 then Undefined
                else
                  let key := (to_int (pixel_x / tile_size),
                              to_int (pixel_y / tile_size)) in
                  match outcome_map (λ dc', tile_map_ (tile_cache dc') !! key)
                          (fst (fetch_tile tile_size key dc)) with
                  | Done tile =>
                      read_water tile
                        (Z.to_nat (wrap (pixel_y mod tile_size * tile_size
                                         + pixel_x mod tile_size)))
                  | Throw e => Throw e
                  | Undefined => Undefined
                  end
            | Throw e => Throw e
            | Undefined => Undefined
            end
        | Throw e => Throw e
        | Undefined => Undefined
        end
    end.
Proof.
  unfold verdict, is_water_cache.
  destruct (transform (dataset_info dc) lon lat) as [[x y]|]; [|done].
  cbv zeta. rewrite bind_lift.
  destruct (pixel_index x _ _) as [pixel_x| |]; [|done..].
  rewrite bind_lift.
  destruct (pixel_index y _ _) as [pixel_y| |]; [|done..].
  destruct (tile_size =? 0); [done|].
  rewrite fst_bind.
  destruct (fst (fetch_tile _ _ _)) as [dc'| |]; [|done..].
  simpl. unfold read_water. rewrite <- get_fst_lookup.
  destruct (get_tile_from_cache _ (tile_cache dc')) as [tile cache'].
  simpl. by destruct (tile !! _).
Qed.

(** A query against a coherent cache answers what a query against a newly
    allocated cache answers. *)
Lemma is_water_cache_cold tile_size lon lat dc :
  coherent tile_size dc →
  verdict (is_water_cache tile_size lon lat dc)
  = verdict (is_water_cache tile_size lon lat (cold dc)).
Proof.
  intros Hc. rewrite !is_water_cache_verdict.
  change (dataset_info (cold dc)) with (dataset_info dc).
  destruct (transform (dataset_info dc) lon lat) as [[x y]|]; [|done].
  cbv zeta.
  destruct (pixel_index x _ _) as [pixel_x| |]; [|done..].
  destruct (pixel_index y _ _) as [pixel_y| |]; [|done..].
  destruct (tile_size =? 0); [done|].
  rewrite (fetch_lookup _ _ dc Hc).
  rewrite (fetch_lookup _ _ (cold dc)
             (coherent_cold _ _ (coherent_max_nonneg _ _ Hc))).
  done.
Qed.

End CachedQuery.

Section CoherentCache.

Implicit Types (key k : Z * Z) (dc : DatsetCache) (c : TileCache).

Lemma same_raster_refl dc : same_raster dc dc.
Proof. by split. Qed.

Lemma add_Done_inv key t c c' :
  add_tile_to_cache key t c = Done c' →
  max_tiles_ c' = max_tiles_ c ∧
  (∀ k t', tile_map_ c' !! k = Some t' →
           (k = key ∧ t' = t) ∨ (k ≠ key ∧ tile_map_ c !! k = Some t')) ∧
  tile_map_ c' !! key = Some t ∧
  (length (access_order_ c') ≤ S (length (access_order_ c)))%nat ∧
  (max_tiles_ c ≤ Z.of_nat (size (tile_map_ c)) →
   length (access_order_ c') = length (access_order_ c)).
Proof.
  unfold add_tile_to_cache. destruct (max_tiles_ c <=? _) eqn:Hfull.
  - destruct (pop_back (access_order_ c)) as [[dk order]|] eqn:E; [|done].
    apply pop_back_Some in E. intros [= <-]. simpl.
    split; [done|]. split; [|split; [apply lookup_insert_eq|]].
    + intros k t' Hk. apply lookup_insert_Some in Hk as [[<- <-]|[Hne Hk]].
      * by left.
      * right. split; [done|]. by apply lookup_delete_Some in Hk as [_ Hk].
    + rewrite E, length_app. simpl. split; [lia|]. intros _. lia.
  - intros [= <-]. simpl. apply Z.leb_gt in Hfull.
    split; [done|]. split; [|split; [apply lookup_insert_eq|]].
    + intros k t' Hk. apply lookup_insert_Some in Hk as [[<- <-]|[Hne Hk]].
      * by left.
      * by right.
    + split; [lia|]. intros Hge. lia.
Qed.

Lemma coherent_fetch tile_size key dc dc1 reads :
  coherent tile_size dc →
  fetch_tile tile_size key dc = (Done dc1, reads) →
  coherent tile_size dc1 ∧ same_raster dc dc1 ∧
  is_Some (tile_map_ (tile_cache dc1) !! key).
Proof.
  intros Hc. pose proof Hc as (Hs & Hsz & Hdata). unfold fetch_tile.
  destruct (is_tile_in_cache key (tile_cache dc)) eqn:Hhit.
  - intros [= <- <-]. apply is_tile_in_cache_true in Hhit.
    split; [done|]. split; [apply same_raster_refl|done].
  - apply is_tile_in_cache_false in Hhit. unfold load_tile_cache.
    intros Hload. apply bind_Done in Hload as (t & l1 & l2 & Hread & Hrest & _).
    rewrite bind_lift in Hrest.
    destruct (add_tile_to_cache key t (tile_cache dc)) as [c'| |] eqn:Hadd;
      [|done..].
    injection Hrest as <- _.
    pose proof (synced_add _ _ _ _ Hs Hhit Hadd) as Hs'.
    pose proof (synced_size _ Hs) as Hlen. pose proof (synced_size _ Hs') as Hlen'.
    destruct (add_Done_inv _ _ _ _ Hadd) as (Hmax & Hlook & Hkey & Hgrow & Hkeep).
    split; [|split]; simpl.
    + split; [done|]. split; simpl.
      * rewrite Hmax, Hlen'.
        destruct (decide (max_tiles_ (tile_cache dc)
                          ≤ Z.of_nat (size (tile_map_ (tile_cache dc)))))
          as [Hfull|Hroom].
        -- rewrite (Hkeep Hfull). lia.
        -- lia.
      * intros k t' Hk. destruct (Hlook k t' Hk) as [[-> ->]|[_ Hold]].
        -- by rewrite Hread.
        -- by apply Hdata.
    + by split.
    + by rewrite Hkey.
Qed.

Lemma coherent_is_water_cache tile_size lon lat dc b dc' reads :
  coherent tile_size dc →
  is_water_cache tile_size lon lat dc = (Done (b, dc'), reads) →
  coherent tile_size dc' ∧ same_raster dc dc'.
Proof.
  intros Hc. unfold is_water_cache.
  destruct (transform (dataset_info dc) lon lat) as [[x y]|]; [|done].
  cbv zeta. rewrite bind_lift.
  destruct (pixel_index x _ _) as [pixel_x| |]; [|done..].
  rewrite bind_lift.
  destruct (pixel_index y _ _) as [pixel_y| |]; [|done..].
  destruct (tile_size =? 0); [done|].
  intros Hq. apply bind_Done in Hq as (dc1 & l1 & l2 & Hfetch & Hrest & _).
  destruct (coherent_fetch _ _ _ _ _ Hc Hfetch)
    as ((Hs1 & Hsz1 & Hdata1) & [Hinfo Hmax] & [t Ht]).
  set (key := (to_int (pixel_x / tile_size), to_int (pixel_y / tile_size))) in *.
  pose proof (get_present key _ t Ht) as [_ Hmap].
  pose proof (get_max_tiles key (tile_cache dc1)) as Hmax'.
  pose proof (synced_get key _ Hs1 (ex_intro _ t Ht)) as Hs'.
  destruct (get_tile_from_cache key (tile_cache dc1)) as [tile cache'].
  simpl in Hmap, Hmax', Hs'.
  destruct (tile !! _) as [v|]; [|done]. injection Hrest as _ <- _.
  split; [|split; simpl; congruence].
  split; [done|]. simpl. rewrite Hmap, Hmax'. split; [done|].
  intros k t' Hk. rewrite Hinfo. by apply Hdata1.
Qed.

Lemma is_water_cache_same_raster tile_size lon lat dc1 dc2 :
  coherent tile_size dc1 → coherent tile_size dc2 → same_raster dc1 dc2 →
  verdict (is_water_cache tile_size lon lat dc1)
  = verdict (is_water_cache tile_size lon lat dc2).
Proof.
  intros H1 H2 [Hinfo Hmax].
  rewrite (is_water_cache_cold _ _ _ dc1 H1), (is_water_cache_cold _ _ _ dc2 H2).
  unfold cold. by rewrite Hinfo, Hmax.
Qed.

End CoherentCache.

(** ** Queries against the rasters of a dataset *)

Section Collection.

Implicit Types (item dc : DatsetCache) (cs rest : list DatsetCache).

Lemma collection_verdict_cons tile_size lon lat item rest :
  verdict (is_water_collection tile_size lon lat (item :: rest))
  = if contains (bbox (dataset_info item)) lon lat then
      match verdict (is_water_cache tile_size lon lat item) with
      | Done true => Done true
      | Done false => verdict (is_water_collection tile_size lon lat rest)
      | Throw e => Throw e
      | Undefined => Undefined
      end
    else verdict (is_water_collection tile_size lon lat rest).
Proof.
  unfold verdict. cbn [is_water_collection].
  destruct (contains _ lon lat).
  - rewrite fst_bind.
    destruct (fst (is_water_cache tile_size lon lat item)) as [[b dc']| |];
      [|done..].
    simpl. destruct b; [done|]. rewrite fst_bind.
    by destruct (fst (is_water_collection tile_size lon lat rest)).
  - rewrite fst_bind.
    by destruct (fst (is_water_collection tile_size lon lat rest)).
Qed.

Lemma collection_verdict_exists tile_size lon lat cs b :
  verdict (is_water_collection tile_size lon lat cs) = Done b →
  b = existsb (λ item, contains (bbox (dataset_info item)) lon lat
                       && says_water tile_size lon lat item) cs.
Proof.
  induction cs as [|item rest IH]; [by intros [= <-]|].
  rewrite collection_verdict_cons. cbn [existsb]. unfold says_water at 1.
  destruct (contains _ lon lat); simpl; [|done].
  destruct (verdict (is_water_cache tile_size lon lat item)) as [[|]| |];
    simpl; [by intros [= <-]|done..].
Qed.

Lemma collection_first_water tile_size lon lat item item' rest reads :
  contains (bbox (dataset_info item)) lon lat = true →
  is_water_cache tile_size lon lat item = (Done (true, item'), reads) →
  is_water_collection tile_size lon lat (item :: rest)
  = (Done (true, item' :: rest), reads).
Proof.
  intros Hin Hq. cbn [is_water_collection]. rewrite Hin, Hq. simpl.
  by rewrite app_nil_r.
Qed.

Lemma collection_verdict_same tile_size lon lat cs1 cs2 :
  Forall2 same_raster cs1 cs2 →
  Forall (coherent tile_size) cs1 → Forall (coherent tile_size) cs2 →
  verdict (is_water_collection tile_size lon lat cs1)
  = verdict (is_water_collection tile_size lon lat cs2).
Proof.
  induction 1 as [|dc1 dc2 cs1 cs2 Hsame _ IH]; [done|].
  intros [H1 Hcs1]%Forall_cons [H2 Hcs2]%Forall_cons.
  rewrite !collection_verdict_cons.
  rewrite (is_water_cache_same_raster _ lon lat dc1 dc2 H1 H2 Hsame).
  rewrite (IH Hcs1 Hcs2). by destruct Hsame as [-> _].
Qed.

Lemma collection_coherent tile_size lon lat cs b cs' reads :
  Forall (coherent tile_size) cs →
  is_water_collection tile_size lon lat cs = (Done (b, cs'), reads) →
  Forall (coherent tile_size) cs' ∧ Forall2 same_raster cs cs'.
Proof.
  revert b cs' reads.
  induction cs as [|item rest IH]; intros b cs' reads Hcs.
  { intros [= <- <- <-]. split; constructor. }
  apply Forall_cons in Hcs as [Hitem Hrest]. cbn [is_water_collection].
  destruct (contains _ lon lat).
  - intros Hq. apply bind_Done in Hq as ([b1 item'] & l1 & l2 & Hq1 & Hq2 & _).
    destruct (coherent_is_water_cache _ _ _ _ _ _ _ Hitem Hq1) as [Hc' Hs'].
    simpl in Hq2. destruct b1.
    + injection Hq2 as <- <- _. split.
      * by constructor.
      * constructor; [done|]. apply Forall_Forall2_diag.
        eapply Forall_impl; [exact Hrest|]. intros dc _. apply same_raster_refl.
    + apply bind_Done in Hq2 as ([b2 rest'] & l3 & l4 & Hq3 & Hq4 & _).
      destruct (IH _ _ _ Hrest Hq3) as [Hr1 Hr2].
      injection Hq4 as <- <-. simpl. split; by constructor.
  - intros Hq. apply bind_Done in Hq as ([b2 rest'] & l3 & l4 & Hq3 & Hq4 & _).
    destruct (IH _ _ _ Hrest Hq3) as [Hr1 Hr2].
    injection Hq4 as <- <-. simpl.
    split; constructor; done || apply same_raster_refl.
Qed.

Lemma coherent_allocate_cache (d : Dataset) :
  0 ≤ max_cache_size_ d →
  Forall (coherent (tile_size_ d)) (allocate_cache d).
Proof.
  intros Hmax. unfold allocate_cache. apply Forall_fmap, Forall_forall.
  intros info _. split; [apply synced_new|]. split; simpl.
  - by rewrite map_size_empty.
  - intros k t. by rewrite lookup_empty.
Qed.

End Collection.

Section ReachableCaches.

Lemma same_raster_trans dc1 dc2 dc3 :
  same_raster dc1 dc2 → same_raster dc2 dc3 → same_raster dc1 dc3.
Proof. intros [H1 H2] [H3 H4]. split; congruence. Qed.

Lemma Forall2_same_raster_trans cs1 cs2 cs3 :
  Forall2 same_raster cs1 cs2 → Forall2 same_raster cs2 cs3 →
  Forall2 same_raster cs1 cs3.
Proof.
  intros H12. revert cs3. induction H12 as [|a b l k Hab _ IH]; intros cs3 H23.
  - by inversion H23.
  - inversion H23 as [|? c ? k' Hbc Hrest]; subst.
    constructor; [by eapply same_raster_trans|by apply IH].
Qed.

Lemma Forall2_same_raster_refl cs : Forall2 same_raster cs cs.
Proof. induction cs; constructor; [apply same_raster_refl|done]. Qed.

Lemma Forall2_same_raster_sym cs1 cs2 :
  Forall2 same_raster cs1 cs2 → Forall2 same_raster cs2 cs1.
Proof.
  induction 1 as [|a b l k [H1 H2] _ IH]; constructor; [by split|done].
Qed.

Lemma caches_after_coherent d points cs cs' :
  Forall (coherent (tile_size_ d)) cs →
  caches_after d points cs = Some cs' →
  Forall (coherent (tile_size_ d)) cs' ∧ Forall2 same_raster cs cs'.
Proof.
  revert cs. induction points as [|[lon lat] rest IH]; intros cs Hcs; simpl.
  - intros [= <-]. split; [done|apply Forall2_same_raster_refl].
  - destruct (is_water_collection (tile_size_ d) lon lat cs)
      as [[[b cs1]| |] reads] eqn:Hq; simpl; [|done..].
    intros Hrest.
    destruct (collection_coherent _ _ _ _ _ _ _ Hcs Hq) as [Hc1 Hs1].
    destruct (IH cs1 Hc1 Hrest) as [Hc' Hs'].
    split; [done|by eapply Forall2_same_raster_trans].
Qed.

End ReachableCaches.

(** ** Routing across rasters *)

(** C1 (as the code has it).  The scan over the rasters is a disjunction:
    a query that completes answers water exactly when some raster whose box
    contains the point says water.  A containing raster that says water
    ends the scan, and the later rasters are left as they were; one that
    says not water, like one whose box does not contain the point, passes
    the decision on to the later rasters. *)
Theorem is_water_collection_any (tile_size : Z) (lon lat : double)
    (item : DatsetCache) (rest : list DatsetCache) :
  (∀ b, verdict (is_water_collection tile_size lon lat (item :: rest)) = Done b →
        b = existsb (λ it, contains (bbox (dataset_info it)) lon lat
                           && says_water tile_size lon lat it)
                    (item :: rest)) ∧
  (∀ item' reads,
      contains (bbox (dataset_info item)) lon lat = true →
      is_water_cache tile_size lon lat item = (Done (true, item'), reads) →
      is_water_collection tile_size lon lat (item :: rest)
      = (Done (true, item' :: rest), reads)) ∧
  (contains (bbox (dataset_info item)) lon lat = true →
   verdict (is_water_cache tile_size lon lat item) = Done false →
   verdict (is_water_collection tile_size lon lat (item :: rest))
   = verdict (is_water_collection tile_size lon lat rest)) ∧
  (contains (bbox (dataset_info item)) lon lat = false →
   verdict (is_water_collection tile_size lon lat (item :: rest))
   = verdict (is_water_collection tile_size lon lat rest)).
Proof.
  split; [|split; [|split]].
  - intros b. apply collection_verdict_exists.
  - intros item' reads. apply collection_first_water.
  - intros Hin Hland. by rewrite collection_verdict_cons, Hin, Hland.
  - intros Hout. by rewrite collection_verdict_cons, Hout.
Qed.

(** The point (0.5, 0.5) against the land raster followed by the water
    raster: the answer is the disjunction, water. *)
Lemma is_water_collection_any_witness :
  true = existsb (λ it, contains (bbox (dataset_info it)) (dbl 1 (-1)) (dbl 1 (-1))
                        && says_water 2 (dbl 1 (-1)) (dbl 1 (-1)) it)
                 (allocate_cache overlap_dataset).
Proof.
  refine (proj1 (is_water_collection_any 2 (dbl 1 (-1)) (dbl 1 (-1))
                   {| dataset_info := land_raster;
                      tile_cache := TileCache_new 4 |}
                   [{| dataset_info := water_raster;
                       tile_cache := TileCache_new 4 |}]) true _).
  vm_compute. reflexivity.
Defined.

(** C1, the claim as stated fails: the point (0.5, 0.5) lies in the boxes
    of both rasters of [overlap_dataset]; the first says not water, the
    second says water, and the query answers water. *)
Lemma first_raster_counterexample :
  Forall (λ it, contains (bbox (dataset_info it)) (dbl 1 (-1)) (dbl 1 (-1)) = true)
         (allocate_cache overlap_dataset) ∧
  says_water 2 (dbl 1 (-1)) (dbl 1 (-1))
    {| dataset_info := land_raster; tile_cache := TileCache_new 4 |} = false ∧
  verdict (is_water_cache 2 (dbl 1 (-1)) (dbl 1 (-1))
             {| dataset_info := land_raster; tile_cache := TileCache_new 4 |})
  = Done false ∧
  verdict (is_water_collection 2 (dbl 1 (-1)) (dbl 1 (-1))
             (allocate_cache overlap_dataset))
  = Done true.
Proof.
  split; [repeat constructor|]. vm_compute. auto.
Qed.

(** C7.  A point outside the bounding box of every raster is not water; the
    query reads no raster and leaves every cache as it was. *)
Theorem is_water_outside_every_bbox (tile_size : Z) (lon lat : double)
    (cs : list DatsetCache) :
  Forall (λ item, contains (bbox (dataset_info item)) lon lat = false) cs →
  is_water_collection tile_size lon lat cs = (Done (false, cs), []).
Proof.
  induction 1 as [|item rest Hout _ IH]; [done|].
  cbn [is_water_collection]. by rewrite Hout, IH.
Qed.

(** The point (5, 5) against the two 4 by 4 rasters. *)
Lemma is_water_outside_every_bbox_witness :
  is_water_collection 2 (dbl 5 0) (dbl 5 0) (allocate_cache overlap_dataset)
  = (Done (false, allocate_cache overlap_dataset), []).
Proof.
  apply (is_water_outside_every_bbox 2 (dbl 5 0) (dbl 5 0)
           (allocate_cache overlap_dataset)).
  repeat constructor.
Defined.

(** ** The cache does not alter the answers *)

(** C9.  Whatever queries a worker has answered before, within the same
    call or in another one, its caches being allocated anew at the start of
    each call, the answer to a query is the same: two cache states reached
    from new caches by any two sequences of completed queries give the same
    verdict, a thrown error included, for every point. *)
Theorem is_water_cache_state_independent (d : Dataset)
    (before1 before2 : list (double * double)) (cs1 cs2 : list DatsetCache)
    (lon lat : double) :
  0 ≤ max_cache_size_ d →
  caches_after d before1 (allocate_cache d) = Some cs1 →
  caches_after d before2 (allocate_cache d) = Some cs2 →
  verdict (is_water_collection (tile_size_ d) lon lat cs1)
  = verdict (is_water_collection (tile_size_ d) lon lat cs2).
Proof.
  intros Hmax H1 H2.
  pose proof (coherent_allocate_cache d Hmax) as Hnew.
  destruct (caches_after_coherent _ _ _ _ Hnew H1) as [Hc1 Hs1].
  destruct (caches_after_coherent _ _ _ _ Hnew H2) as [Hc2 Hs2].
  apply collection_verdict_same; [|done..].
  eapply Forall2_same_raster_trans; [|exact Hs2].
  by apply Forall2_same_raster_sym.
Qed.

(** The water pixel of [small_dataset], asked of a new cache (a miss) and
    of a cache that holds its tile after an eviction (a hit). *)
Lemma is_water_cache_state_independent_witness :
  ∃ cs2,
    caches_after small_dataset
      [(dbl 1 (-1), dbl 1 (-1)); (dbl 7 (-1), dbl 1 (-1))]
      (allocate_cache small_dataset) = Some cs2 ∧
    Forall (λ dc, is_tile_in_cache (1, 1) (tile_cache dc) = true) cs2 ∧
    verdict (is_water_collection 2 (dbl 7 (-1)) (dbl 1 (-1))
               (allocate_cache small_dataset))
    = verdict (is_water_collection 2 (dbl 7 (-1)) (dbl 1 (-1)) cs2).
Proof.
  eexists. split; [vm_compute; reflexivity|].
  split; [repeat constructor|].
  apply (is_water_cache_state_independent small_dataset []
           [(dbl 1 (-1), dbl 1 (-1)); (dbl 7 (-1), dbl 1 (-1))]).
  - vm_compute. discriminate.
  - reflexivity.
  - vm_compute. reflexivity.
Defined.

(** ** Pixel indices *)

Section PixelIndex.





End PixelIndex.




(** ** Dispatch and the batch query *)

Section Dispatch.

Context {S : Type} (worker : Z → Z → S → M S) (P : S → Prop).
Hypothesis worker_keeps :
  ∀ start end_ s s' reads,
    P s → worker start end_ s = (Done s', reads) → P s'.

Lemma thread_body_keeps range st st' reads :
  P (fst st) → thread_body worker range st = (Done st', reads) → P (fst st').
Proof.
  intros HP. unfold thread_body.
  destruct (worker (fst range) (snd range) (fst st)) as [[s'|e|] l] eqn:E;
    [| |done].
  - intros [= <- _]. simpl. by eapply worker_keeps.
  - by intros [= <- _].
Qed.

Lemma join_threads_keeps threads st st' reads :
  P (fst st) → join_threads worker threads st = (Done st', reads) →
  P (fst st').
Proof.
  revert st reads. induction threads as [|range rest IH]; intros st reads HP.
  - by intros [= <- _].
  - cbn [join_threads]. intros Hj.
    apply bind_Done in Hj as (st1 & l1 & l2 & Hbody & Hrest & _).
    eapply IH; [|exact Hrest]. by eapply thread_body_keeps.
Qed.

Lemma parallel_for_keeps size num_threads hw s s' reads :
  P s → parallel_for worker size num_threads hw s = (Done s', reads) → P s'.
Proof.
  intros HP. unfold parallel_for.
  destruct (num_threads =? 1); [by apply worker_keeps|].
  destruct (Z.min _ size =? 0); [done|].
  intros Hp. apply bind_Done in Hp as (st & l1 & l2 & Hjoin & Hend & _).
  apply join_threads_keeps in Hjoin; [|done].
  destruct (snd st); [done|]. by injection Hend as <- _.
Qed.

End Dispatch.

Lemma worker_loop_length d lon lat n ix cache result r reads :
  worker_loop d lon lat n ix cache result = (Done r, reads) →
  length r = length result.
Proof.
  revert ix cache result reads.
  induction n as [|n IH]; intros ix cache result reads; simpl.
  - by intros [= <- _].
  - destruct (lon !! Z.to_nat ix) as [x|]; [|done].
    destruct (lat !! Z.to_nat ix) as [y|]; [|done].
    intros Hw. apply bind_Done in Hw as (q & l1 & l2 & _ & Hrest & _).
    destruct (bool_decide _); [|done].
    apply IH in Hrest. by rewrite length_insert in Hrest.
Qed.

(** C6.  When the two coordinate sequences differ in length the batch
    query throws [SizeMismatch] and nothing else happens: no raster is
    read and no result exists.  When they agree, the buffer handed to the
    dispatch has one slot per point, each [false], and a result that is
    returned has one slot per point. *)
Theorem is_water_size_check (d : Dataset) (lon lat : list double)
    (num_threads hardware_concurrency : Z) :
  (length lon ≠ length lat →
     is_water d lon lat num_threads hardware_concurrency
     = (Throw SizeMismatch, [])) ∧
  (length lon = length lat →
     (∃ result,
        length result = length lon ∧
        Forall (λ b, b = false) result ∧
        is_water d lon lat num_threads hardware_concurrency
        = parallel_for (worker d lon lat) (Z.of_nat (length lon)) num_threads
            hardware_concurrency result) ∧
     ∀ r reads,
       is_water d lon lat num_threads hardware_concurrency = (Done r, reads) →
       length r = length lon).
Proof.
  unfold is_water. split.
  - intros Hne. by rewrite bool_decide_eq_true_2.
  - intros Heq. rewrite bool_decide_eq_false_2 by (by intros ?). split.
    + exists (repeat false (length lon)). split; [apply repeat_length|].
      split; [|done]. apply Forall_forall. intros b Hb.
      apply list_elem_of_In in Hb. by apply repeat_spec in Hb.
    + intros r reads Hp.
      eapply (parallel_for_keeps (worker d lon lat)
                (λ r, length r = length lon)) in Hp; [done| |].
      * intros start end_ s s' l Hs Hw. unfold worker in Hw.
        apply worker_loop_length in Hw. congruence.
      * apply repeat_length.
Qed.

(** The scenario of the specification: three longitudes, two latitudes. *)
Lemma is_water_size_check_witness :
  is_water small_dataset [dbl 1 0; dbl 2 0; dbl 3 0] [dbl 1 0; dbl 2 0] 0 8
  = (Throw SizeMismatch, []).
Proof.
  refine (proj1 (is_water_size_check small_dataset
                   [dbl 1 0; dbl 2 0; dbl 3 0] [dbl 1 0; dbl 2 0] 0 8) _).
  simpl. lia.
Defined.

(** C5, on the code: an empty batch is answered only by the synchronous
    path.  With [num_threads = 1] the result is the empty sequence; with any
    other thread count the clamp [min(num_threads, size)] yields 0 and the
    chunk size [size / num_threads] is a division by zero. *)
Theorem is_water_empty_batch (d : Dataset) (hardware_concurrency : Z) :
  0 ≤ hardware_concurrency →
  is_water d [] [] 1 hardware_concurrency = (Done [], []) ∧
  is_water d [] [] 0 hardware_concurrency = (Undefined, []) ∧
  is_water d [] [] 2 hardware_concurrency = (Undefined, []) ∧
  is_water d [] [] 8 hardware_concurrency = (Undefined, []).
Proof.
  intros Hhw. unfold is_water, parallel_for. simpl.
  rewrite Z.min_r by done. done.
Qed.

Lemma is_water_empty_batch_witness :
  is_water small_dataset [] [] 1 8 = (Done [], []) ∧
  is_water small_dataset [] [] 0 8 = (Undefined, []) ∧
  is_water small_dataset [] [] 2 8 = (Undefined, []) ∧
  is_water small_dataset [] [] 8 8 = (Undefined, []).
Proof. apply (is_water_empty_batch small_dataset 8). lia. Defined.

(** ** The dispatch against the synchronous path *)

Section DispatchEquivalence.

Variables (d : Dataset) (lon lat : list double).
Hypothesis max_cache_size_nonneg : 0 ≤ max_cache_size_ d.

(** The caches of a worker never change what its loop computes. *)
Lemma worker_loop_cold_eq n ix cache result :
  Forall (coherent (tile_size_ d)) cache →
  Forall2 same_raster (allocate_cache d) cache →
  fst (worker_loop d lon lat n ix cache result)
  = worker_loop_cold d lon lat n ix result.
Proof.
  revert ix cache result.
  induction n as [|n IH]; intros ix cache result Hc Hs; [done|].
  cbn [worker_loop worker_loop_cold].
  destruct (lon !! Z.to_nat ix) as [x|]; [|done].
  destruct (lat !! Z.to_nat ix) as [y|]; [|done].
  rewrite fst_bind.
  rewrite <- (collection_verdict_same (tile_size_ d) x y _ _
                (Forall2_same_raster_sym _ _ Hs) Hc
                (coherent_allocate_cache d max_cache_size_nonneg)).
  unfold verdict.
  destruct (is_water_collection (tile_size_ d) x y cache)
    as [[[b cs']| |] reads] eqn:Hq; [|done..].
  simpl. destruct (bool_decide _); [|done].
  destruct (collection_coherent _ _ _ _ _ _ _ Hc Hq) as [Hc' Hs'].
  apply IH; [done|]. by eapply Forall2_same_raster_trans.
Qed.

Lemma worker_cold_eq start end_ result :
  fst (worker d lon lat start end_ result)
  = worker_loop_cold d lon lat (Z.to_nat (end_ - start)) start result.
Proof.
  unfold worker. apply worker_loop_cold_eq.
  - by apply coherent_allocate_cache.
  - apply Forall2_same_raster_refl.
Qed.

(** A loop that completes is the loop over a first part followed by the
    loop over the rest. *)
Lemma worker_loop_cold_split n1 n2 ix result r :
  0 ≤ ix →
  worker_loop_cold d lon lat (n1 + n2) ix result = Done r →
  ∃ r1, worker_loop_cold d lon lat n1 ix result = Done r1 ∧
        worker_loop_cold d lon lat n2 (ix + Z.of_nat n1) r1 = Done r.
Proof.
  revert ix result. induction n1 as [|n1 IH]; intros ix result Hix.
  - simpl. intros H. exists result. split; [done|].
    by rewrite Z.add_0_r.
  - cbn [Nat.add worker_loop_cold].
    destruct (lon !! Z.to_nat ix) as [x|]; [|done].
    destruct (lat !! Z.to_nat ix) as [y|]; [|done].
    destruct (verdict _) as [b| |]; [|done..].
    destruct (bool_decide _); [|done].
    intros H. destruct (IH (ix + 1) _ ltac:(lia) H) as (r1 & H1 & H2).
    exists r1. split; [done|].
    by replace (ix + Z.of_nat (S n1)) with (ix + 1 + Z.of_nat n1) by lia.
Qed.

Lemma launch_threads_S n ix start size num_threads shift :
  launch_threads (S n) ix start size num_threads shift
  = (start, if ix =? wrap (num_threads - 1) then size else wrap (start + shift))
    :: launch_threads n (ix + 1) (wrap (start + shift)) size num_threads shift.
Proof. done. Qed.

Lemma join_threads_cons {S : Type} (w : Z → Z → S → M S) range rest st :
  join_threads w (range :: rest) st
  = (st' <~ thread_body w range st ;; join_threads w rest st').
Proof. done. Qed.

(** The threads of the launch loop, from thread [ix] on, complete the
    synchronous loop from where thread [ix] starts. *)
Lemma join_threads_cold k :
  ∀ size num_threads shift ix start result r,
    0 ≤ shift → 0 ≤ ix → 1 ≤ num_threads ≤ size → size < SIZE_MOD →
    ix + Z.of_nat (S k) = num_threads →
    start = ix * shift →
    num_threads * shift ≤ size →
    worker_loop_cold d lon lat (Z.to_nat (size - start)) start result = Done r →
    fst (join_threads (worker d lon lat)
           (launch_threads (S k) ix start size num_threads shift)
           (result, None))
    = Done (r, None).
Proof.
  induction k as [|k IH];
    intros size num_threads shift ix start result r
           Hshift Hix Hnt Hsize Hlast Hstart Hfit Hloop.
  - rewrite launch_threads_S, join_threads_cons.
    replace (wrap (num_threads - 1)) with ix
      by (unfold wrap; rewrite Z.mod_small; lia).
    rewrite Z.eqb_refl, fst_bind. unfold thread_body. cbn [fst snd].
    pose proof (worker_cold_eq start size result) as Hw. rewrite Hloop in Hw.
    destruct (worker d lon lat start size result) as [o reads].
    simpl in Hw. by rewrite Hw.
  - rewrite launch_threads_S, join_threads_cons.
    assert (0 ≤ start ∧ start + shift ≤ size) as [Hs0 Hs1] by nia.
    replace (wrap (num_threads - 1)) with (num_threads - 1)
      by (unfold wrap; rewrite Z.mod_small; lia).
    rewrite (proj2 (Z.eqb_neq ix (num_threads - 1))) by lia.
    replace (wrap (start + shift)) with (start + shift)
      by (unfold wrap; rewrite Z.mod_small; lia).
    replace (Z.to_nat (size - start))
      with (Z.to_nat shift + Z.to_nat (size - (start + shift)))%nat in Hloop
      by lia.
    apply worker_loop_cold_split in Hloop as (r1 & H1 & H2); [|done].
    rewrite Z2Nat.id in H2 by done.
    rewrite fst_bind. unfold thread_body at 1. cbn [fst snd].
    pose proof (worker_cold_eq start (start + shift) result) as Hw.
    replace (start + shift - start) with shift in Hw by lia.
    rewrite H1 in Hw.
    destruct (worker d lon lat start (start + shift) result) as [o reads].
    simpl in Hw. rewrite Hw. cbn [fst].
    apply (IH size num_threads shift (ix + 1)); try done; lia.
Qed.

(** For a batch that is not empty, whatever the number of threads, the
    dispatch returns the result of the synchronous path whenever that path
    completes. *)
Lemma dispatch_matches_synchronous num_threads hardware_concurrency r reads :
  length lon = length lat →
  0 < Z.of_nat (length lon) < SIZE_MOD →
  0 ≤ num_threads →
  (num_threads = 0 → 1 ≤ hardware_concurrency) →
  is_water d lon lat 1 hardware_concurrency = (Done r, reads) →
  fst (is_water d lon lat num_threads hardware_concurrency) = Done r.
Proof.
  intros Hlen Hsize Hnt Hhw. unfold is_water.
  rewrite bool_decide_eq_false_2 by (by intros ?).
  set (size := Z.of_nat (length lon)) in *.
  set (result := repeat false (length lon)).
  unfold parallel_for at 1. simpl. intros Hsync.
  pose proof (worker_cold_eq 0 size result) as Hcold.
  rewrite Hsync in Hcold. simpl in Hcold. symmetry in Hcold.
  unfold parallel_for.
  destruct (num_threads =? 1) eqn:E1; [by rewrite Hsync|].
  set (nt := Z.min (if num_threads =? 0 then hardware_concurrency
                    else num_threads) size).
  assert (1 ≤ nt ≤ size) as Hnt'.
  { unfold nt. destruct (num_threads =? 0) eqn:E0.
    - apply Z.eqb_eq in E0. specialize (Hhw E0). lia.
    - apply Z.eqb_neq in E0. lia. }
  rewrite (proj2 (Z.eqb_neq nt 0)) by lia.
  rewrite fst_bind.
  assert (Z.to_nat nt = S (Z.to_nat (nt - 1))) as -> by lia.
  rewrite (join_threads_cold (Z.to_nat (nt - 1)) size nt (size / nt) 0 0
             result r); try done; try lia.
  - apply Z.div_pos; lia.
  - apply Z.mul_div_le. lia.
Qed.

End DispatchEquivalence.

(** ** The end-to-end scenario *)

(** The synthetic raster of the specification: the point (300.5, 211.5)
    falls on pixel (300, 300) and is water, (0.5, 0.5) is not. *)
Example scenario_queries :
  fst (is_water scenario_dataset [dbl 601 (-1); dbl 1 (-1)]
         [dbl 423 (-1); dbl 1 (-1)] 1 8)
  = Done [true; false].
Proof. vm_compute. reflexivity. Qed.

(** * Further properties *)

(** ** The tile cache as a store *)

Section CacheStore.

Implicit Types (key k : Z * Z) (c : TileCache) (t : list Z).

Lemma list_remove_idem key (l : list (Z * Z)) :
  list_remove key (list_remove key l) = list_remove key l.
Proof.
  apply list_remove_absent. rewrite elem_of_list_remove. tauto.
Qed.

Lemma get_again key c :
  get_tile_from_cache key (snd (get_tile_from_cache key c))
  = get_tile_from_cache key c.
Proof.
  unfold get_tile_from_cache, map_subscript.
  destruct (tile_map_ c !! key) as [t|] eqn:E; simpl.
  - rewrite E. by rewrite list_remove_cons_eq, list_remove_idem.
  - rewrite lookup_insert_eq. by rewrite list_remove_cons_eq, list_remove_idem.
Qed.

Lemma add_never_throws key t c e : add_tile_to_cache key t c ≠ Throw e.
Proof.
  unfold add_tile_to_cache. destruct (max_tiles_ c <=? _); [|done].
  by destruct (pop_back _) as [[? ?]|].
Qed.

End CacheStore.

(** X1.  A tile that has been added is found: after [add_tile_to_cache]
    the key is in the cache, and the lookup that follows returns the tile
    that was added and leaves the map as the addition left it. *)
Theorem add_then_get (key : TileKey) (t : Tile) (c c' : TileCache) :
  add_tile_to_cache key t c = Done c' →
  is_tile_in_cache key c' = true ∧
  fst (get_tile_from_cache key c') = t ∧
  tile_map_ (snd (get_tile_from_cache key c')) = tile_map_ c'.
Proof.
  intros Hadd. destruct (add_Done_inv _ _ _ _ Hadd) as (_ & _ & Hkey & _).
  split; [|by apply get_present].
  apply is_tile_in_cache_true. by rewrite Hkey.
Qed.

Lemma add_then_get_witness :
  ∃ c', add_tile_to_cache (3, 4) [1; 0] (TileCache_new 2) = Done c' ∧
        is_tile_in_cache (3, 4) c' = true ∧
        fst (get_tile_from_cache (3, 4) c') = [1; 0] ∧
        tile_map_ (snd (get_tile_from_cache (3, 4) c')) = tile_map_ c'.
Proof.
  eexists. split; [reflexivity|].
  apply (add_then_get (3, 4) [1; 0] (TileCache_new 2)). reflexivity.
Defined.

(** X2.  Looking a key up twice is looking it up once: the second lookup
    returns the same tile and leaves the cache exactly as the first left
    it, whether the key was present or not. *)
Theorem get_twice (key : TileKey) (c : TileCache) :
  get_tile_from_cache key (snd (get_tile_from_cache key c))
  = get_tile_from_cache key c.
Proof. apply get_again. Qed.

(** X3.  Operations on one key leave the tiles of the other keys alone: a
    lookup changes no other entry of the map, and an addition changes at
    most one, the key at the back of the recency list, which it removes,
    and only when the map holds [max_tiles] entries or more. *)
Theorem other_keys_kept (key k : TileKey) (t : Tile) (c : TileCache) :
  k ≠ key →
  tile_map_ (snd (get_tile_from_cache key c)) !! k = tile_map_ c !! k ∧
  ∀ c', add_tile_to_cache key t c = Done c' →
        tile_map_ c' !! k = tile_map_ c !! k ∨
        (tile_map_ c' !! k = None ∧
         max_tiles_ c ≤ Z.of_nat (size (tile_map_ c)) ∧
         ∃ order, access_order_ c = order ++ [k]).
Proof.
  intros Hne. split.
  - unfold get_tile_from_cache, map_subscript.
    destruct (tile_map_ c !! key); simpl; [done|].
    by rewrite lookup_insert_ne.
  - intros c'. unfold add_tile_to_cache.
    destruct (max_tiles_ c <=? _) eqn:Hfull.
    + destruct (pop_back (access_order_ c)) as [[dk order]|] eqn:E; [|done].
      apply pop_back_Some in E. intros [= <-]. simpl.
      rewrite lookup_insert_ne by done.
      destruct (decide (k = dk)) as [->|Hdk].
      * right. rewrite lookup_delete_eq. apply Z.leb_le in Hfull. eauto.
      * left. by rewrite lookup_delete_ne.
    + intros [= <-]. simpl. left. by rewrite lookup_insert_ne.
Qed.

Lemma other_keys_kept_witness :
  tile_map_ (snd (get_tile_from_cache (0, 1)
                    {| max_tiles_ := 1; tile_map_ := {[(0, 0) := [1]]};
                       access_order_ := [(0, 0)] |})) !! (0, 0)
  = Some [1].
Proof.
  refine (proj1 (other_keys_kept (0, 1) (0, 0) []
                   {| max_tiles_ := 1; tile_map_ := {[(0, 0) := [1]]};
                      access_order_ := [(0, 0)] |} _)).
  discriminate.
Defined.

Section AnySequence.

Implicit Types (key k : Z * Z) (c : TileCache) (ops : list cache_op).

Lemma run_ops_covered_defined ops c :
  covered c → 1 ≤ max_tiles_ c →
  ∃ c', run_ops ops c = Done c' ∧ covered c' ∧ max_tiles_ c' = max_tiles_ c.
Proof.
  revert c. induction ops as [|op ops IH]; intros c Hc Hmax.
  - by exists c.
  - cbn [run_ops].
    assert (∃ c1, apply_op op c = Done c1) as [c1 Hop].
    { destruct op as [k|k|k t]; simpl; [eauto..|].
      destruct (add_tile_to_cache k t c) as [c1|e|] eqn:Hadd; [eauto| |].
      - by apply add_never_throws in Hadd.
      - apply add_undefined_iff in Hadd; [lia|done|lia]. }
    rewrite Hop.
    pose proof (covered_apply_op _ _ _ Hc Hop) as Hc1.
    pose proof (max_tiles_apply_op _ _ _ Hop) as Hmax1.
    destruct (IH c1 Hc1 ltac:(lia)) as (c' & Hrun & Hc' & Hmax').
    exists c'. split; [done|]. split; [done|]. congruence.
Qed.

Lemma run_ops_provenance ops c c' k t :
  run_ops ops c = Done c' →
  tile_map_ c' !! k = Some t →
  tile_map_ c !! k = Some t ∨ (t = [] ∧ OpGet k ∈ ops) ∨ OpPut k t ∈ ops.
Proof.
  revert c. induction ops as [|op ops IH]; intros c; cbn [run_ops].
  - intros [= <-]. by left.
  - destruct (apply_op op c) as [c1| |] eqn:Hop; [|done..].
    intros Hrun Hk. destruct (IH c1 Hrun Hk) as [H1|[[-> Hg]|Hp]].
    + destruct op as [k0|k0|k0 t0]; simpl in Hop.
      * injection Hop as <-. by left.
      * injection Hop as <-. revert H1.
        unfold get_tile_from_cache, map_subscript.
        destruct (tile_map_ c !! k0) eqn:E; simpl; [by left|].
        intros [[<- <-]|[_ H1]]%lookup_insert_Some; [|by left].
        right. left. split; [done|]. left.
      * destruct (add_Done_inv _ _ _ _ Hop) as (_ & Hlook & _).
        destruct (Hlook k t H1) as [[-> ->]|[_ Hold]]; [|by left].
        right. right. left.
    + right. left. split; [done|]. by right.
    + right. right. by right.
Qed.

End AnySequence.

(** X4.  With a capacity of at least 1 the cache cannot be driven into
    undefined behaviour: every sequence of operations, in whatever order,
    runs to completion from a new cache, the capacity is unchanged, and
    every key of the map is on the recency list. *)
Theorem run_ops_defined (max_tiles : Z) (ops : list cache_op) :
  1 ≤ max_tiles →
  ∃ c, run_ops ops (TileCache_new max_tiles) = Done c ∧
       max_tiles_ c = max_tiles ∧
       ∀ k, is_tile_in_cache k c = true → k ∈ access_order_ c.
Proof.
  intros Hmax.
  destruct (run_ops_covered_defined ops (TileCache_new max_tiles)
              (covered_new _) Hmax) as (c & Hrun & [Hcov _] & Hm).
  exists c. split; [done|]. split; [done|].
  intros k Hk. apply Hcov. by apply is_tile_in_cache_true.
Qed.

Lemma run_ops_defined_witness :
  ∃ c, run_ops [OpGet (0, 0); OpPut (0, 0) [1]; OpPut (0, 0) [2];
                OpPut (1, 1) [3]; OpGet (2, 2)] (TileCache_new 1) = Done c ∧
       max_tiles_ c = 1 ∧
       ∀ k, is_tile_in_cache k c = true → k ∈ access_order_ c.
Proof.
  apply (run_ops_defined 1
           [OpGet (0, 0); OpPut (0, 0) [1]; OpPut (0, 0) [2];
            OpPut (1, 1) [3]; OpGet (2, 2)]).
  lia.
Defined.

(** X5.  The cache makes up no tile: after any sequence of operations,
    a tile found under a key was there before the sequence, or was added
    under that key by the sequence, or is the empty tile that a lookup of
    that key stores when the key is absent. *)
Theorem cached_tile_provenance (ops : list cache_op) (c c' : TileCache)
    (k : TileKey) (t : Tile) :
  run_ops ops c = Done c' →
  tile_map_ c' !! k = Some t →
  tile_map_ c !! k = Some t ∨ (t = [] ∧ OpGet k ∈ ops) ∨ OpPut k t ∈ ops.
Proof. apply run_ops_provenance. Qed.

Lemma cached_tile_provenance_witness :
  tile_map_ (TileCache_new 2) !! (0, 1) = Some [7] ∨
  ([7] = [] ∧ OpGet (0, 1) ∈ [OpPut (0, 0) [5]; OpPut (0, 1) [7]; OpGet (0, 0)]) ∨
  OpPut (0, 1) [7] ∈ [OpPut (0, 0) [5]; OpPut (0, 1) [7]; OpGet (0, 0)].
Proof.
  refine (cached_tile_provenance
            [OpPut (0, 0) [5]; OpPut (0, 1) [7]; OpGet (0, 0)]
            (TileCache_new 2) _ (0, 1) [7] _ _).
  - vm_compute. reflexivity.
  - vm_compute. reflexivity.
Defined.

(** ** Bounding boxes *)

Section DoubleOrder.

Implicit Types (a b c : double).

Lemma d_leb_nan_l b : d_leb S754_nan b = false.
Proof. done. Qed.

Lemma d_leb_nan_r a : d_leb a S754_nan = false.
Proof. by destruct a as [[]|[]| |[] ? ?]. Qed.

(** The comparison of finite doubles of one sign: exponents first, then
    mantissas. *)
Lemma lex_le_trans (e1 e2 e3 : Z) (m1 m2 m3 : positive) :
  match (match e1 ?= e2 with
         | Eq => (m1 ?= m2)%positive | Lt => Lt | Gt => Gt
         end) with Gt => False | _ => True end →
  match (match e2 ?= e3 with
         | Eq => (m2 ?= m3)%positive | Lt => Lt | Gt => Gt
         end) with Gt => False | _ => True end →
  match (match e1 ?= e3 with
         | Eq => (m1 ?= m3)%positive | Lt => Lt | Gt => Gt
         end) with Gt => False | _ => True end.
Proof.
  destruct (Z.compare_spec e1 e2), (Z.compare_spec e2 e3),
    (Z.compare_spec e1 e3); try lia; try done; subst.
  destruct (Pos.compare_spec m1 m2), (Pos.compare_spec m2 m3),
    (Pos.compare_spec m1 m3); try lia; done.
Qed.

Lemma lex_ge_trans (e1 e2 e3 : Z) (m1 m2 m3 : positive) :
  match (match e1 ?= e2 with
         | Eq => (m1 ?= m2)%positive | Lt => Lt | Gt => Gt
         end) with Lt => False | _ => True end →
  match (match e2 ?= e3 with
         | Eq => (m2 ?= m3)%positive | Lt => Lt | Gt => Gt
         end) with Lt => False | _ => True end →
  match (match e1 ?= e3 with
         | Eq => (m1 ?= m3)%positive | Lt => Lt | Gt => Gt
         end) with Lt => False | _ => True end.
Proof.
  destruct (Z.compare_spec e1 e2), (Z.compare_spec e2 e3),
    (Z.compare_spec e1 e3); try lia; try done; subst.
  destruct (Pos.compare_spec m1 m2), (Pos.compare_spec m2 m3),
    (Pos.compare_spec m1 m3); try lia; done.
Qed.

Lemma d_leb_trans a b c :
  d_leb a b = true → d_leb b c = true → d_leb a c = true.
Proof.
  unfold d_leb, SFleb.
  destruct a as [[]|[]| |[] m1 e1], b as [[]|[]| |[] m2 e2],
    c as [[]|[]| |[] m3 e3]; simpl; try done.
  - (* three negative finite doubles *)
    change (Pos.compare_cont Eq) with Pos.compare.
    intros H1 H2.
    pose proof (lex_ge_trans e1 e2 e3 m1 m2 m3) as Ht. revert H1 H2 Ht.
    destruct (e1 ?= e2), (e2 ?= e3), (e1 ?= e3);
      destruct (m1 ?= m2)%positive, (m2 ?= m3)%positive,
        (m1 ?= m3)%positive; simpl; try done; intros; exfalso; auto.
  - (* three positive finite doubles *)
    change (Pos.compare_cont Eq) with Pos.compare.
    intros H1 H2.
    pose proof (lex_le_trans e1 e2 e3 m1 m2 m3) as Ht. revert H1 H2 Ht.
    destruct (e1 ?= e2), (e2 ?= e3), (e1 ?= e3);
      destruct (m1 ?= m2)%positive, (m2 ?= m3)%positive,
        (m1 ?= m3)%positive; simpl; try done; intros; exfalso; auto.
Qed.

End DoubleOrder.

(** X6.  A point with a coordinate that is not a number lies in no box, and
    a box with a bound that is not a number contains no point. *)
Theorem contains_no_nan (b : BBox) (lon lat : double) :
  contains b lon lat = true →
  lon ≠ S754_nan ∧ lat ≠ S754_nan ∧
  min_x_ b ≠ S754_nan ∧ max_x_ b ≠ S754_nan ∧
  min_y_ b ≠ S754_nan ∧ max_y_ b ≠ S754_nan.
Proof.
  unfold contains. rewrite !andb_true_iff. intros [[[H1 H2] H3] H4].
  repeat split; intros Hnan; rewrite Hnan in *;
    rewrite ?d_leb_nan_l, ?d_leb_nan_r in *; discriminate.
Qed.

Lemma contains_no_nan_witness :
  dbl 1 0 ≠ S754_nan ∧ dbl 2 0 ≠ S754_nan ∧
  min_x_ (bbox land_raster) ≠ S754_nan ∧ max_x_ (bbox land_raster) ≠ S754_nan ∧
  min_y_ (bbox land_raster) ≠ S754_nan ∧ max_y_ (bbox land_raster) ≠ S754_nan.
Proof.
  apply (contains_no_nan (bbox land_raster) (dbl 1 0) (dbl 2 0)).
  vm_compute. reflexivity.
Defined.

(** X7.  A box whose bounds are out of order is empty: when a point is
    contained, the minimum of each axis is at most its maximum.  So a
    raster whose geotransform gives [max_x < min_x] or [max_y < min_y]
    (a pixel size of the unexpected sign) answers no query. *)
Theorem contains_ordered_bounds (b : BBox) (lon lat : double) :
  contains b lon lat = true →
  d_leb (min_x_ b) (max_x_ b) = true ∧ d_leb (min_y_ b) (max_y_ b) = true.
Proof.
  unfold contains. rewrite !andb_true_iff. intros [[[H1 H2] H3] H4].
  split; by eapply d_leb_trans.
Qed.

Lemma contains_ordered_bounds_witness :
  d_leb (min_x_ (bbox land_raster)) (max_x_ (bbox land_raster)) = true ∧
  d_leb (min_y_ (bbox land_raster)) (max_y_ (bbox land_raster)) = true.
Proof.
  apply (contains_ordered_bounds (bbox land_raster) (dbl 1 0) (dbl 2 0)).
  vm_compute. reflexivity.
Defined.

(** ** Reading a tile *)

Section ReadTile.

Lemma wrap_bounds z : 0 ≤ wrap z < SIZE_MOD.
Proof. unfold wrap. apply Z.mod_pos_bound. reflexivity. Qed.

Lemma wrap_small z : 0 ≤ z < SIZE_MOD → wrap z = z.
Proof. intros H. unfold wrap. by apply Z.mod_small. Qed.

Lemma of_int_small z : 0 ≤ z < SIZE_MOD → of_int z = z.
Proof. intros H. unfold of_int. by apply Z.mod_small. Qed.

Lemma to_int_small z : - 2 ^ 31 ≤ z < 2 ^ 31 → to_int z = z.
Proof. intros H. unfold to_int. rewrite Z.mod_small; lia. Qed.

Lemma SIZE_MOD_eq : SIZE_MOD = 18446744073709551616.
Proof. reflexivity. Qed.

(** The two outcomes of the bounds test of [read_tile]. *)
Lemma read_tile_cases tile_size (key : Z * Z) info :
  1 ≤ tile_size →
  0 ≤ x_size info < SIZE_MOD → 0 ≤ y_size info < SIZE_MOD →
  let x_offset := wrap (of_int (fst key) * tile_size) in
  let y_offset := wrap (of_int (snd key) * tile_size) in
  let x_sz := Z.min tile_size (x_size info - x_offset) in
  let y_sz := Z.min tile_size (y_size info - y_offset) in
  (x_size info ≤ x_offset ∨ y_size info ≤ y_offset →
   read_tile tile_size key info = (Throw OutOfBounds, [])) ∧
  (x_offset < x_size info → y_offset < y_size info →
   read_tile tile_size key info
   = read_band info x_offset y_offset x_sz y_sz
       (repeat 0 (Z.to_nat (wrap (tile_size * tile_size))))
       tile_size tile_size ∧
   window_inside info (x_offset, y_offset, x_sz, y_sz)).
Proof.
  intros Hts Hx Hy x_offset y_offset x_sz y_sz.
  pose proof (wrap_bounds (of_int (fst key) * tile_size)) as Hxo.
  pose proof (wrap_bounds (of_int (snd key) * tile_size)) as Hyo.
  fold x_offset in Hxo. fold y_offset in Hyo.
  unfold read_tile. fold x_offset y_offset. split.
  - intros Hout.
    assert ((x_size info <=? x_offset) || (y_size info <=? y_offset) = true)
      as Hb.
    { apply orb_true_iff. rewrite !Z.leb_le. done. }
    by rewrite Hb.
  - intros Hxin Hyin.
    rewrite (wrap_small (x_size info - x_offset)) by lia.
    rewrite (wrap_small (y_size info - y_offset)) by lia.
    fold x_sz y_sz.
    assert (1 ≤ x_sz ≤ x_size info - x_offset) as Hxs by (unfold x_sz; lia).
    assert (1 ≤ y_sz ≤ y_size info - y_offset) as Hys by (unfold y_sz; lia).
    rewrite (wrap_small (x_offset + x_sz)) by lia.
    rewrite (wrap_small (y_offset + y_sz)) by lia.
    rewrite (proj2 (Z.leb_gt (x_size info) x_offset)) by lia.
    rewrite (proj2 (Z.leb_gt (y_size info) y_offset)) by lia.
    rewrite (proj2 (Z.ltb_ge (x_size info) (x_offset + x_sz))) by lia.
    rewrite (proj2 (Z.ltb_ge (y_size info) (y_offset + y_sz))) by lia.
    rewrite (proj2 (Z.ltb_ge x_offset 0)) by lia.
    rewrite (proj2 (Z.ltb_ge y_offset 0)) by lia.
    simpl. split; [done|]. unfold window_inside. lia.
Qed.

Lemma read_band_log info xo yo xs ys buffer bx by_ :
  snd (read_band info xo yo xs ys buffer bx by_) = [(xo, yo, xs, ys)] ∧
  fst (read_band info xo yo xs ys buffer bx by_) ≠ Throw OutOfBounds ∧
  fst (read_band info xo yo xs ys buffer bx by_) ≠ Undefined.
Proof.
  unfold read_band. by destruct (raster_io _ _ _ _ _ _ _ _).
Qed.

End ReadTile.

(** X8.  [read_tile] asks the raster only for windows that lie within it.
    For a raster whose sizes are [size_t] values and a tile size of at
    least 1, the bounds test fails, and nothing is read, exactly when the
    origin of the tile is at or beyond the extent of the raster on one
    axis; otherwise there is exactly one read, of the tile clamped to the
    extent, and the outcome is the tile or [IOError].  The further tests of
    the source ([offset + size > extent], [offset < 0]) never fire. *)
Theorem read_tile_bounds (tile_size : Z) (key : TileKey) (info : DatasetInfo) :
  1 ≤ tile_size →
  0 ≤ x_size info < SIZE_MOD → 0 ≤ y_size info < SIZE_MOD →
  let x_offset := wrap (of_int (fst key) * tile_size) in
  let y_offset := wrap (of_int (snd key) * tile_size) in
  if (x_size info <=? x_offset) || (y_size info <=? y_offset) then
    read_tile tile_size key info = (Throw OutOfBounds, [])
  else
    ∃ w, snd (read_tile tile_size key info) = [w] ∧
         w = (x_offset, y_offset,
              Z.min tile_size (x_size info - x_offset),
              Z.min tile_size (y_size info - y_offset)) ∧
         window_inside info w ∧
         fst (read_tile tile_size key info) ≠ Throw OutOfBounds ∧
         fst (read_tile tile_size key info) ≠ Undefined.
Proof.
  intros Hts Hx Hy x_offset y_offset.
  destruct (read_tile_cases tile_size key info Hts Hx Hy) as [Hout Hin].
  fold x_offset y_offset in Hout, Hin.
  destruct ((x_size info <=? x_offset) || (y_size info <=? y_offset)) eqn:Hb.
  - apply Hout. apply orb_true_iff in Hb. by rewrite !Z.leb_le in Hb.
  - apply orb_false_iff in Hb as [H1 H2].
    apply Z.leb_gt in H1, H2. destruct (Hin H1 H2) as [-> Hw].
    eexists. split; [apply read_band_log|]. split; [done|].
    split; [done|]. apply read_band_log.
Qed.

(** The tile (1, 0) of a 4 by 4 raster in tiles of 3: the window is
    clamped to the one column that is left. *)
Lemma read_tile_bounds_witness :
  ∃ w, snd (read_tile 3 (1, 0) land_raster) = [w] ∧
       w = (3, 0, 1, 3) ∧
       window_inside land_raster w ∧
       fst (read_tile 3 (1, 0) land_raster) ≠ Throw OutOfBounds ∧
       fst (read_tile 3 (1, 0) land_raster) ≠ Undefined.
Proof.
  refine (read_tile_bounds 3 (1, 0) land_raster _ _ _).
  - lia.
  - vm_compute. split; [discriminate|reflexivity].
  - vm_compute. split; [discriminate|reflexivity].
Defined.

(** X9.  The tile that is read for a pixel of the raster is the tile that
    holds it.  For a pixel within a raster whose sizes fit an [int], the
    key built from the pixel never fails the bounds test, the window that
    is read starts at the tile's origin and covers the pixel, and the
    offsets used to index the tile are the pixel's offsets within that
    window. *)
Theorem read_tile_covers_pixel (tile_size pixel_x pixel_y : Z)
    (info : DatasetInfo) :
  1 ≤ tile_size →
  x_size info < 2 ^ 31 → y_size info < 2 ^ 31 →
  0 ≤ pixel_x < x_size info → 0 ≤ pixel_y < y_size info →
  ∃ x_offset y_offset x_sz y_sz,
    snd (read_tile tile_size
           (to_int (pixel_x / tile_size), to_int (pixel_y / tile_size)) info)
    = [(x_offset, y_offset, x_sz, y_sz)] ∧
    fst (read_tile tile_size
           (to_int (pixel_x / tile_size), to_int (pixel_y / tile_size)) info)
    ≠ Throw OutOfBounds ∧
    x_offset = pixel_x / tile_size * tile_size ∧
    y_offset = pixel_y / tile_size * tile_size ∧
    x_offset ≤ pixel_x < x_offset + x_sz ∧
    y_offset ≤ pixel_y < y_offset + y_sz ∧
    pixel_x mod tile_size = pixel_x - x_offset ∧
    pixel_y mod tile_size = pixel_y - y_offset.
Proof.
  intros Hts Hxs Hys Hpx Hpy. pose proof SIZE_MOD_eq as HS.
  assert (∀ p, 0 ≤ p < 2 ^ 31 →
            0 ≤ p / tile_size ≤ p ∧
            p / tile_size * tile_size ≤ p < p / tile_size * tile_size + tile_size ∧
            p mod tile_size = p - p / tile_size * tile_size) as Hdiv.
  { intros p Hp. pose proof (Z.div_mod p tile_size ltac:(lia)) as Hdm.
    pose proof (Z.mod_pos_bound p tile_size ltac:(lia)) as Hmod.
    assert (0 ≤ p / tile_size) by (apply Z.div_pos; lia).
    assert (p / tile_size ≤ p) by (apply Z.div_le_upper_bound; nia).
    split; [lia|]. split; nia. }
  destruct (Hdiv pixel_x ltac:(lia)) as (Htx & Hcx & Hmx).
  destruct (Hdiv pixel_y ltac:(lia)) as (Hty & Hcy & Hmy).
  assert (2 ^ 31 = 2147483648) as H31 by reflexivity.
  destruct (read_tile_cases tile_size
              (to_int (pixel_x / tile_size), to_int (pixel_y / tile_size)) info
              Hts ltac:(lia) ltac:(lia)) as [_ Hin].
  cbn [fst snd] in Hin.
  rewrite !to_int_small by lia.
  rewrite !to_int_small in Hin by lia.
  rewrite (of_int_small (pixel_x / tile_size)) in Hin by lia.
  rewrite (of_int_small (pixel_y / tile_size)) in Hin by lia.
  rewrite (wrap_small (pixel_x / tile_size * tile_size)) in Hin by lia.
  rewrite (wrap_small (pixel_y / tile_size * tile_size)) in Hin by lia.
  destruct (Hin ltac:(lia) ltac:(lia)) as [Hread _].
  rewrite Hread.
  eexists _, _, _, _. split; [apply read_band_log|].
  split; [apply read_band_log|]. lia.
Qed.

(** Pixel (3, 2) of the 4 by 4 raster in tiles of 2. *)
Lemma read_tile_covers_pixel_witness :
  ∃ x_offset y_offset x_sz y_sz,
    snd (read_tile 2 (to_int (3 / 2), to_int (2 / 2)) land_raster)
    = [(x_offset, y_offset, x_sz, y_sz)] ∧
    fst (read_tile 2 (to_int (3 / 2), to_int (2 / 2)) land_raster)
    ≠ Throw OutOfBounds ∧
    x_offset = 3 / 2 * 2 ∧ y_offset = 2 / 2 * 2 ∧
    x_offset ≤ 3 < x_offset + x_sz ∧ y_offset ≤ 2 < y_offset + y_sz ∧
    3 mod 2 = 3 - x_offset ∧ 2 mod 2 = 2 - y_offset.
Proof.
  refine (read_tile_covers_pixel 2 3 2 land_raster _ _ _ _ _);
    vm_compute; try split; try reflexivity; discriminate.
Defined.

(** ** One query after another *)

Section QueryFacts.

Implicit Types (key : Z * Z) (dc : DatsetCache).

Lemma fetch_Done tile_size key dc dc1 reads :
  fetch_tile tile_size key dc = (Done dc1, reads) →
  dataset_info dc1 = dataset_info dc ∧
  max_tiles_ (tile_cache dc1) = max_tiles_ (tile_cache dc) ∧
  is_Some (tile_map_ (tile_cache dc1) !! key).
Proof.
  unfold fetch_tile.
  destruct (is_tile_in_cache key (tile_cache dc)) eqn:Hhit.
  - intros [= <- <-]. by apply is_tile_in_cache_true in Hhit.
  - unfold load_tile_cache. intros Hload.
    apply bind_Done in Hload as (t & l1 & l2 & _ & Hrest & _).
    rewrite bind_lift in Hrest.
    destruct (add_tile_to_cache key t (tile_cache dc)) as [c'| |] eqn:Hadd;
      [|done..].
    injection Hrest as <- _. simpl.
    destruct (add_Done_inv _ _ _ _ Hadd) as (Hmax & _ & Hkey & _).
    split; [done|]. split; [done|]. by rewrite Hkey.
Qed.

(** What a completed query went through. *)
Lemma is_water_cache_Done tile_size lon lat dc b dc' reads :
  is_water_cache tile_size lon lat dc = (Done (b, dc'), reads) →
  ∃ x y pixel_x pixel_y dc1 t v,
    transform (dataset_info dc) lon lat = Some (x, y) ∧
    pixel_index x (g0 (geotransform (dataset_info dc)))
      (g1 (geotransform (dataset_info dc))) = Done pixel_x ∧
    pixel_index y (g3 (geotransform (dataset_info dc)))
      (g5 (geotransform (dataset_info dc))) = Done pixel_y ∧
    (tile_size =? 0) = false ∧
    fetch_tile tile_size
      (to_int (pixel_x / tile_size), to_int (pixel_y / tile_size)) dc
    = (Done dc1, reads) ∧
    tile_map_ (tile_cache dc1)
      !! (to_int (pixel_x / tile_size), to_int (pixel_y / tile_size))
    = Some t ∧
    t !! Z.to_nat (wrap (pixel_y mod tile_size * tile_size
                         + pixel_x mod tile_size)) = Some v ∧
    b = (v =? 1) ∧
    dc' = {| dataset_info := dataset_info dc;
             tile_cache :=
               snd (get_tile_from_cache
                      (to_int (pixel_x / tile_size),
                       to_int (pixel_y / tile_size))
                      (tile_cache dc1)) |}.
Proof.
  unfold is_water_cache.
  destruct (transform (dataset_info dc) lon lat) as [[x y]|]; [|done].
  cbv zeta. rewrite bind_lift.
  destruct (pixel_index x _ _) as [pixel_x| |] eqn:Hx; [|done..].
  rewrite bind_lift.
  destruct (pixel_index y _ _) as [pixel_y| |] eqn:Hy; [|done..].
  destruct (tile_size =? 0) eqn:Hts; [done|].
  intros Hq. apply bind_Done in Hq as (dc1 & l1 & l2 & Hfetch & Hrest & ->).
  destruct (fetch_Done _ _ _ _ _ Hfetch) as (_ & _ & [t Ht]).
  pose proof (get_present _ _ t Ht) as [Hfst _].
  destruct (get_tile_from_cache _ (tile_cache dc1)) as [tile cache'] eqn:Hget.
  simpl in Hfst. subst tile.
  destruct (t !! _) as [v|] eqn:Hv; [|done].
  injection Hrest as <- <- <-. rewrite app_nil_r.
  exists x, y, pixel_x, pixel_y, dc1, t, v.
  repeat (split; [done|]). by rewrite Hget.
Qed.

(** A completed query, asked again, is answered from the cache. *)
Lemma is_water_cache_again tile_size lon lat dc b dc' reads :
  is_water_cache tile_size lon lat dc = (Done (b, dc'), reads) →
  is_water_cache tile_size lon lat dc' = (Done (b, dc'), []).
Proof.
  intros Hq.
  apply is_water_cache_Done in Hq
    as (x & y & px & py & dc1 & t & v & Htr & Hx & Hy & Hts & _ & Ht & Hv
        & -> & ->).
  set (key := (to_int (px / tile_size), to_int (py / tile_size))) in *.
  unfold is_water_cache. cbn [dataset_info]. rewrite Htr. cbv zeta.
  rewrite bind_lift, Hx, bind_lift, Hy, Hts. fold key.
  pose proof (get_present key _ t Ht) as [Hfst Hmap].
  unfold fetch_tile. cbn [tile_cache].
  rewrite (proj2 (is_tile_in_cache_true key _)) by (by rewrite Hmap, Ht).
  unfold ret, bind. cbn [tile_cache]. rewrite get_again.
  destruct (get_tile_from_cache key (tile_cache dc1)) as [tile cache'].
  simpl in Hfst. subst tile. by rewrite Hv.
Qed.

Lemma is_water_cache_info tile_size lon lat dc b dc' reads :
  is_water_cache tile_size lon lat dc = (Done (b, dc'), reads) →
  dataset_info dc' = dataset_info dc.
Proof.
  intros Hq.
  by apply is_water_cache_Done in Hq
    as (? & ? & ? & ? & ? & ? & ? & _ & _ & _ & _ & _ & _ & _ & _ & ->).
Qed.

Lemma collection_again tile_size lon lat cs b cs' reads :
  is_water_collection tile_size lon lat cs = (Done (b, cs'), reads) →
  is_water_collection tile_size lon lat cs' = (Done (b, cs'), []).
Proof.
  revert b cs' reads. induction cs as [|item rest IH]; intros b cs' reads.
  { by intros [= <- <- _]. }
  cbn [is_water_collection].
  destruct (contains (bbox (dataset_info item)) lon lat) eqn:Hin.
  - intros Hq. apply bind_Done in Hq as ([b1 item'] & l1 & l2 & Hq1 & Hq2 & _).
    pose proof (is_water_cache_info _ _ _ _ _ _ _ Hq1) as Hinfo.
    apply is_water_cache_again in Hq1. cbn [fst snd] in Hq2.
    destruct b1.
    + injection Hq2 as <- <- _. cbn [is_water_collection].
      by rewrite Hinfo, Hin, Hq1.
    + apply bind_Done in Hq2 as ([b2 rest'] & l3 & l4 & Hq3 & Hq4 & _).
      injection Hq4 as <- <-. cbn [fst snd].
      apply IH in Hq3. cbn [is_water_collection].
      by rewrite Hinfo, Hin, Hq1; simpl; rewrite Hq3.
  - intros Hq. apply bind_Done in Hq as ([b2 rest'] & l3 & l4 & Hq3 & Hq4 & _).
    injection Hq4 as <- <-. cbn [fst snd].
    apply IH in Hq3. cbn [is_water_collection].
    by rewrite Hin, Hq3.
Qed.

End QueryFacts.

(** X11.  A query that has completed leaves the caches in a state in
    which the same query is answered without reading any raster: asked
    again, it gives the same answer, reads nothing, and changes no cache. *)
Theorem is_water_collection_again (tile_size : Z) (lon lat : double)
    (cs cs' : list DatsetCache) (b : bool) (reads : list (Z * Z * Z * Z)) :
  is_water_collection tile_size lon lat cs = (Done (b, cs'), reads) →
  is_water_collection tile_size lon lat cs' = (Done (b, cs'), []).
Proof. apply collection_again. Qed.

(** The water pixel of [small_dataset]: the first query reads its tile, the
    second reads nothing. *)
Lemma is_water_collection_again_witness :
  ∃ cs',
    is_water_collection 2 (dbl 7 (-1)) (dbl 1 (-1))
      (allocate_cache small_dataset)
    = (Done (true, cs'), [(2, 2, 2, 2)]) ∧
    is_water_collection 2 (dbl 7 (-1)) (dbl 1 (-1)) cs' = (Done (true, cs'), []).
Proof.
  eexists. split; [vm_compute; reflexivity|].
  refine (is_water_collection_again 2 (dbl 7 (-1)) (dbl 1 (-1))
            (allocate_cache small_dataset) _ true [(2, 2, 2, 2)] _).
  vm_compute. reflexivity.
Defined.

(** ** Routing, errors included *)

(** X13.  The answer of a query over several rasters is the answer of the
    first raster, in input order, whose box contains the point and which
    does not answer "not water"; it is "not water" when there is none.  In
    particular an error thrown for an earlier raster is the outcome of the
    query even when a later raster marks the point as water. *)
Theorem is_water_collection_first_decisive (tile_size : Z) (lon lat : double)
    (cs : list DatsetCache) :
  verdict (is_water_collection tile_size lon lat cs)
  = match find (decides tile_size lon lat) cs with
    | Some item => verdict (is_water_cache tile_size lon lat item)
    | None => Done false
    end.
Proof.
  induction cs as [|item rest IH]; [done|].
  rewrite collection_verdict_cons. cbn [find]. unfold decides at 1.
  destruct (contains (bbox (dataset_info item)) lon lat); [|done].
  destruct (verdict (is_water_cache tile_size lon lat item)) as [[|]| |] eqn:E;
    simpl; by rewrite ?E.
Qed.

(** ** Defined behaviour of a query *)

Section Defined.

Implicit Types (key : Z * Z) (dc : DatsetCache).

Lemma copy_window_length pixel xo yo xs ys bx i (buffer : list Z) :
  length (copy_window pixel xo yo xs ys bx i buffer) = length buffer.
Proof.
  revert i. induction buffer as [|old rest IH]; intros i; simpl; [done|].
  by rewrite IH.
Qed.

Lemma keeps_length_square_raster n pixel : keeps_length (square_raster n pixel).
Proof.
  intros xo yo xs ys buffer bx by_ t. simpl. unfold band_of_pixels.
  intros [= <-]. apply copy_window_length.
Qed.

Lemma pixel_index_never_throws v origin step e :
  pixel_index v origin step ≠ Throw e.
Proof.
  unfold pixel_index, double_to_size_t.
  destruct (d_div _ _) as [s|s| |[] m ex]; try done.
  - by destruct (_ =? 0).
  - by destruct (_ <? SIZE_MOD).
Qed.

Lemma read_tile_Done_length tile_size key info t :
  keeps_length info →
  fst (read_tile tile_size key info) = Done t →
  length t = Z.to_nat (wrap (tile_size * tile_size)).
Proof.
  intros Hkeep. unfold read_tile. cbv zeta.
  destruct (_ || _); [done|]. unfold read_band.
  destruct (raster_io _ _ _ _ _ _ _ _) as [t'|] eqn:Hio; [|done].
  simpl. intros [= <-]. apply Hkeep in Hio. by rewrite Hio, repeat_length.
Qed.

Lemma read_tile_never_undefined tile_size key info :
  fst (read_tile tile_size key info) ≠ Undefined.
Proof.
  unfold read_tile. cbv zeta. destruct (_ || _); [done|]. unfold read_band.
  by destruct (raster_io _ _ _ _ _ _ _ _).
Qed.

Lemma fetch_defined tile_size key dc :
  0 ≤ tile_size * tile_size < SIZE_MOD →
  1 ≤ max_tiles_ (tile_cache dc) → covered (tile_cache dc) →
  tiles_sized tile_size dc → keeps_length (dataset_info dc) →
  match fst (fetch_tile tile_size key dc) with
  | Done dc1 =>
      dataset_info dc1 = dataset_info dc ∧
      max_tiles_ (tile_cache dc1) = max_tiles_ (tile_cache dc) ∧
      covered (tile_cache dc1) ∧ tiles_sized tile_size dc1 ∧
      is_Some (tile_map_ (tile_cache dc1) !! key)
  | Throw _ => True
  | Undefined => False
  end.
Proof.
  intros Hts Hmax Hcov Hsized Hkeep. unfold fetch_tile.
  destruct (is_tile_in_cache key (tile_cache dc)) eqn:Hhit.
  - simpl. by apply is_tile_in_cache_true in Hhit.
  - unfold load_tile_cache. rewrite fst_bind.
    pose proof (read_tile_never_undefined tile_size key (dataset_info dc)).
    destruct (fst (read_tile tile_size key (dataset_info dc))) as [t| |] eqn:Hr;
      [|done..].
    apply (read_tile_Done_length _ _ _ _ Hkeep) in Hr.
    rewrite wrap_small in Hr by done.
    rewrite bind_lift.
    destruct (add_tile_to_cache key t (tile_cache dc)) as [c'|e|] eqn:Hadd.
    + simpl. destruct (add_Done_inv _ _ _ _ Hadd) as (Hm & Hlook & Hkey & _).
      split; [done|]. split; [done|].
      split; [by eapply covered_add|]. split; [|by rewrite Hkey].
      intros k t' Hk. simpl in Hk.
      destruct (Hlook k t' Hk) as [[-> ->]|[_ Hold]]; [done|].
      by eapply Hsized.
    + by apply add_never_throws in Hadd.
    + apply add_undefined_iff in Hadd; [lia|done|lia].
Qed.

Lemma in_tile_index tile_size pixel_x pixel_y :
  1 ≤ tile_size < 2 ^ 32 →
  (Z.to_nat (wrap (pixel_y mod tile_size * tile_size + pixel_x mod tile_size))
   < Z.to_nat (tile_size * tile_size))%nat.
Proof.
  intros Hts. assert (2 ^ 32 = 4294967296) as H32 by reflexivity.
  pose proof SIZE_MOD_eq.
  pose proof (Z.mod_pos_bound pixel_x tile_size ltac:(lia)).
  pose proof (Z.mod_pos_bound pixel_y tile_size ltac:(lia)).
  rewrite wrap_small by nia. nia.
Qed.

End Defined.

(** X12.  Undefined behaviour of a query against one raster can only come
    from the conversion of a coordinate to a pixel index.  With a tile size
    between 1 and 2^32 - 1, a cache of capacity at least 1 whose keys are
    on its recency list and whose tiles have [tile_size * tile_size]
    bytes, and a raster whose reads fill the buffer they are given, the
    lookup of the pixel in its tile is within the tile and the eviction has
    a key to evict; and a query that completes leaves a cache of the same
    kind. *)
Theorem is_water_cache_defined (tile_size : Z) (lon lat : double)
    (dc : DatsetCache) :
  1 ≤ tile_size < 2 ^ 32 →
  1 ≤ max_tiles_ (tile_cache dc) →
  covered (tile_cache dc) →
  tiles_sized tile_size dc →
  keeps_length (dataset_info dc) →
  match fst (is_water_cache tile_size lon lat dc) with
  | Done (b, dc') =>
      dataset_info dc' = dataset_info dc ∧
      max_tiles_ (tile_cache dc') = max_tiles_ (tile_cache dc) ∧
      covered (tile_cache dc') ∧ tiles_sized tile_size dc'
  | Throw _ => True
  | Undefined =>
      ∃ x y, transform (dataset_info dc) lon lat = Some (x, y) ∧
             (pixel_index x (g0 (geotransform (dataset_info dc)))
                (g1 (geotransform (dataset_info dc))) = Undefined ∨
              pixel_index y (g3 (geotransform (dataset_info dc)))
                (g5 (geotransform (dataset_info dc))) = Undefined)
  end.
Proof.
  intros Hts Hmax Hcov Hsized Hkeep.
  assert (2 ^ 32 = 4294967296) as H32 by reflexivity.
  pose proof SIZE_MOD_eq as HS.
  unfold is_water_cache.
  destruct (transform (dataset_info dc) lon lat) as [[x y]|]; [|done].
  cbv zeta. rewrite bind_lift.
  destruct (pixel_index x _ _) as [pixel_x|e|] eqn:Hx.
  2:{ by apply pixel_index_never_throws in Hx. }
  2:{ simpl. exists x, y. auto. }
  rewrite bind_lift.
  destruct (pixel_index y _ _) as [pixel_y|e|] eqn:Hy.
  2:{ by apply pixel_index_never_throws in Hy. }
  2:{ simpl. exists x, y. auto. }
  rewrite (proj2 (Z.eqb_neq tile_size 0)) by lia.
  rewrite fst_bind.
  set (key := (to_int (pixel_x / tile_size), to_int (pixel_y / tile_size))).
  pose proof (fetch_defined tile_size key dc ltac:(nia) Hmax Hcov Hsized Hkeep)
    as Hfetch.
  destruct (fst (fetch_tile tile_size key dc)) as [dc1| |]; [|done..].
  destruct Hfetch as (Hinfo & Hmax1 & Hcov1 & Hsized1 & [t Ht]).
  pose proof (get_present key _ t Ht) as [Hfst Hmap].
  pose proof (get_max_tiles key (tile_cache dc1)) as Hgm.
  pose proof (covered_get key _ Hcov1) as Hcov'.
  destruct (get_tile_from_cache key (tile_cache dc1)) as [tile cache'].
  simpl in Hfst, Hmap, Hgm, Hcov'. subst tile.
  pose proof (in_tile_index tile_size pixel_x pixel_y Hts) as Hidx.
  rewrite <- (Hsized1 key t Ht) in Hidx.
  apply lookup_lt_is_Some in Hidx as [v Hv]. rewrite Hv. simpl.
  split; [done|]. split; [congruence|]. split; [done|].
  intros k t' Hk. simpl in Hk. rewrite Hmap in Hk. by eapply Hsized1.
Qed.

(** The water pixel of [small_dataset] asked of a new cache. *)
Lemma is_water_cache_defined_witness :
  match fst (is_water_cache 2 (dbl 7 (-1)) (dbl 1 (-1))
               {| dataset_info :=
                    square_raster 4
                      (λ px py, if (px =? 3) && (py =? 3) then 1 else 0);
                  tile_cache := TileCache_new 1 |}) with
  | Done (b, dc') =>
      dataset_info dc'
      = square_raster 4 (λ px py, if (px =? 3) && (py =? 3) then 1 else 0) ∧
      max_tiles_ (tile_cache dc') = 1 ∧
      covered (tile_cache dc') ∧ tiles_sized 2 dc'
  | Throw _ => True
  | Undefined =>
      ∃ x y, identity_transform (dbl 7 (-1)) (dbl 1 (-1)) = Some (x, y) ∧
             (pixel_index x (dbl 0 0) (dbl 1 0) = Undefined ∨
              pixel_index y (dbl 4 0) (dbl (-1) 0) = Undefined)
  end.
Proof.
  apply (is_water_cache_defined 2 (dbl 7 (-1)) (dbl 1 (-1))
           {| dataset_info :=
                square_raster 4
                  (λ px py, if (px =? 3) && (py =? 3) then 1 else 0);
              tile_cache := TileCache_new 1 |}).
  - split; [discriminate|reflexivity].
  - simpl. lia.
  - apply covered_new.
  - intros k t. simpl. by rewrite lookup_empty.
  - apply keeps_length_square_raster.
Defined.

(** ** The chunks of the dispatch *)

Section Chunks.

Lemma launch_threads_chunks (k : nat) :
  ∀ size num_threads ix,
    1 ≤ num_threads ≤ size → size < SIZE_MOD → 0 ≤ ix →
    ix + Z.of_nat k = num_threads →
    launch_threads k ix (ix * (size / num_threads)) size num_threads
      (size / num_threads)
    = chunk size num_threads <$> seqZ ix (Z.of_nat k).
Proof.
  induction k as [|k IH]; intros size num_threads ix Hnt Hsize Hix Hk.
  - done.
  - assert (0 ≤ size / num_threads) as Hshift by (apply Z.div_pos; lia).
    assert (num_threads * (size / num_threads) ≤ size) as Hfit
      by (apply Z.mul_div_le; lia).
    rewrite launch_threads_S, seqZ_cons by lia. rewrite fmap_cons.
    replace (Z.pred (Z.of_nat (S k))) with (Z.of_nat k) by lia.
    rewrite (wrap_small (num_threads - 1)) by lia.
    assert (ix * (size / num_threads) + size / num_threads
            = Z.succ ix * (size / num_threads)) as Hnext by lia.
    rewrite Hnext. rewrite (wrap_small (Z.succ ix * _)) by nia.
    f_equal. replace (ix + 1) with (Z.succ ix) by lia. apply IH; lia.
Qed.

End Chunks.

(** X14.  With more than one thread the dispatch hands thread [i] the range
    [chunk size n i], where [n] is the requested number of threads (the
    reported hardware concurrency when 0 is requested) clamped to the number
    of items: ranges of [size / n] items that follow one another from 0,
    the last one ending at [size]. *)
Theorem parallel_for_chunks {S : Type} (worker : Z → Z → S → M S)
    (size num_threads hardware_concurrency : Z) (s : S) :
  num_threads ≠ 1 →
  size < SIZE_MOD →
  1 ≤ Z.min (if num_threads =? 0 then hardware_concurrency else num_threads)
        size →
  parallel_for worker size num_threads hardware_concurrency s
  = (st <~ join_threads worker
             (chunks size
                (Z.min (if num_threads =? 0 then hardware_concurrency
                        else num_threads) size))
             (s, None) ;;
     match snd st with
     | Some e => throw e
     | None => ret (fst st)
     end) ∧
  1 ≤ size / Z.min (if num_threads =? 0 then hardware_concurrency
                    else num_threads) size.
Proof.
  intros Hne Hsize Hnt. unfold parallel_for.
  rewrite (proj2 (Z.eqb_neq num_threads 1)) by done.
  set (nt := Z.min _ size) in *.
  rewrite (proj2 (Z.eqb_neq nt 0)) by lia.
  assert (nt ≤ size) by (unfold nt; lia).
  split.
  - pose proof (launch_threads_chunks (Z.to_nat nt) size nt 0
                  ltac:(lia) Hsize ltac:(lia) ltac:(lia)) as Hl.
    rewrite Z.mul_0_l, Z2Nat.id in Hl by lia. by rewrite Hl.
  - apply Z.div_le_lower_bound; lia.
Qed.

(** Seven items and eight threads requested: seven chunks of one item. *)
Lemma parallel_for_chunks_witness :
  chunks 7 (Z.min 8 7)
  = [(0, 1); (1, 2); (2, 3); (3, 4); (4, 5); (5, 6); (6, 7)] ∧
  1 ≤ 7 / Z.min 8 7.
Proof.
  split; [reflexivity|].
  refine (proj2 (parallel_for_chunks (λ _ _ (s : unit), ret s) 7 8 0 tt
                   _ _ _)).
  - discriminate.
  - reflexivity.
  - discriminate.
Defined.

(** ** The worker *)

Section WorkerSlice.

Lemma worker_loop_slice d lon lat n :
  ∀ ix cache result r reads,
    0 ≤ ix →
    worker_loop d lon lat n ix cache result = (Done r, reads) →
    length r = length result ∧
    ∀ i : nat, Z.of_nat i < ix ∨ ix + Z.of_nat n ≤ Z.of_nat i →
               r !! i = result !! i.
Proof.
  induction n as [|n IH]; intros ix cache result r reads Hix.
  - simpl. by intros [= <- _].
  - cbn [worker_loop].
    destruct (lon !! Z.to_nat ix) as [x|]; [|done].
    destruct (lat !! Z.to_nat ix) as [y|]; [|done].
    intros Hw. apply bind_Done in Hw as (q & l1 & l2 & _ & Hrest & _).
    destruct (bool_decide _); [|done].
    apply IH in Hrest as [Hlen Hframe]; [|lia].
    rewrite length_insert in Hlen. split; [done|].
    intros i Hi. rewrite Hframe by lia.
    apply list_lookup_insert_ne. lia.
Qed.

End WorkerSlice.

(** X17.  A worker writes only the slots of its own range: when it
    completes, the result has the length it had and every slot outside
    [[start, end)] holds what it held before. *)
Theorem worker_writes_its_slice (d : Dataset) (lon lat : list double)
    (start end_ : Z) (result r : list bool) (reads : list (Z * Z * Z * Z)) :
  0 ≤ start →
  worker d lon lat start end_ result = (Done r, reads) →
  length r = length result ∧
  ∀ i : nat, Z.of_nat i < start ∨ end_ ≤ Z.of_nat i → r !! i = result !! i.
Proof.
  intros Hstart Hw. unfold worker in Hw.
  apply worker_loop_slice in Hw as [Hlen Hframe]; [|done].
  split; [done|]. intros i Hi. apply Hframe. lia.
Qed.

(** The worker of the range [1, 3) over four points. *)
Lemma worker_writes_its_slice_witness :
  ∃ r reads,
    worker small_dataset [dbl 1 (-1); dbl 7 (-1); dbl 7 (-1); dbl 1 (-1)]
      [dbl 1 (-1); dbl 1 (-1); dbl 7 (-1); dbl 1 (-1)] 1 3
      [true; false; false; true] = (Done r, reads) ∧
    length r = 4%nat ∧
    ∀ i : nat, Z.of_nat i < 1 ∨ 3 ≤ Z.of_nat i →
               r !! i = [true; false; false; true] !! i.
Proof.
  eexists _, _. split; [vm_compute; reflexivity|].
  refine (worker_writes_its_slice small_dataset
            [dbl 1 (-1); dbl 7 (-1); dbl 7 (-1); dbl 1 (-1)]
            [dbl 1 (-1); dbl 1 (-1); dbl 7 (-1); dbl 1 (-1)] 1 3
            [true; false; false; true] _ _ _ _).
  - lia.
  - vm_compute. reflexivity.
Defined.

(** ** The batch, point by point *)

Section BatchPointwise.

Variables (d : Dataset) (lon lat : list double).
Hypothesis max_cache_size_nonneg : 0 ≤ max_cache_size_ d.

Lemma worker_loop_cold_app n1 n2 ix result r1 r :
  0 ≤ ix →
  worker_loop_cold d lon lat n1 ix result = Done r1 →
  worker_loop_cold d lon lat n2 (ix + Z.of_nat n1) r1 = Done r →
  worker_loop_cold d lon lat (n1 + n2) ix result = Done r.
Proof.
  revert ix result. induction n1 as [|n1 IH]; intros ix result Hix.
  - simpl. intros [= <-]. by rewrite Z.add_0_r.
  - cbn [Nat.add worker_loop_cold].
    destruct (lon !! Z.to_nat ix) as [x|]; [|done].
    destruct (lat !! Z.to_nat ix) as [y|]; [|done].
    destruct (verdict _) as [b| |]; [|done..].
    destruct (bool_decide _); [|done].
    intros H1 H2. apply (IH (ix + 1)); [lia|done|].
    by replace (ix + 1 + Z.of_nat n1) with (ix + Z.of_nat (S n1)) by lia.
Qed.

Lemma worker_loop_cold_spec n :
  ∀ ix result r,
    0 ≤ ix →
    worker_loop_cold d lon lat n ix result = Done r →
    length r = length result ∧
    (∀ i : nat, Z.of_nat i < ix ∨ ix + Z.of_nat n ≤ Z.of_nat i →
                r !! i = result !! i) ∧
    (∀ i : nat, ix ≤ Z.of_nat i < ix + Z.of_nat n →
       ∃ x y b, lon !! i = Some x ∧ lat !! i = Some y ∧
                verdict (is_water_collection (tile_size_ d) x y
                           (allocate_cache d)) = Done b ∧
                r !! i = Some b).
Proof.
  induction n as [|n IH]; intros ix result r Hix.
  - simpl. intros [= <-]. split; [done|]. split; [done|]. intros i Hi. lia.
  - cbn [worker_loop_cold].
    destruct (lon !! Z.to_nat ix) as [x|] eqn:Hx; [|done].
    destruct (lat !! Z.to_nat ix) as [y|] eqn:Hy; [|done].
    destruct (verdict _) as [b| |] eqn:Hv; [|done..].
    destruct (bool_decide _) eqn:Hlt; [|done].
    apply bool_decide_eq_true in Hlt.
    intros Hrest. apply IH in Hrest as (Hlen & Hframe & Hfill); [|lia].
    rewrite length_insert in Hlen. split; [done|]. split.
    + intros i Hi. rewrite Hframe by lia. apply list_lookup_insert_ne. lia.
    + intros i Hi. destruct (decide (Z.of_nat i = ix)) as [Heq|Hne].
      * assert (i = Z.to_nat ix) as -> by lia.
        exists x, y, b. repeat (split; [done|]).
        rewrite Hframe by lia. by apply list_lookup_insert_eq.
      * apply Hfill. lia.
Qed.

Lemma join_threads_exception {S : Type} (w : Z → Z → S → M S) threads :
  ∀ s e st reads,
    join_threads w threads (s, Some e) = (Done st, reads) → snd st ≠ None.
Proof.
  induction threads as [|range rest IH]; intros s e st reads.
  - by intros [= <- _].
  - rewrite join_threads_cons. intros Hj.
    apply bind_Done in Hj as ([s1 exc1] & l1 & l2 & Hbody & Hrest & _).
    unfold thread_body in Hbody. cbn [fst snd] in Hbody.
    destruct (w (fst range) (snd range) s) as [[s'|e'|] l]; [| |done].
    + injection Hbody as <- <- _. by eapply IH.
    + injection Hbody as <- <- _. by eapply IH.
Qed.

(** The converse of [join_threads_cold]: threads that all complete have
    computed the synchronous loop. *)
Lemma join_threads_cold_inv k :
  ∀ size num_threads shift ix start result r,
    0 ≤ shift → 0 ≤ ix → 1 ≤ num_threads ≤ size → size < SIZE_MOD →
    ix + Z.of_nat (S k) = num_threads →
    start = ix * shift →
    num_threads * shift ≤ size →
    fst (join_threads (worker d lon lat)
           (launch_threads (S k) ix start size num_threads shift)
           (result, None))
    = Done (r, None) →
    worker_loop_cold d lon lat (Z.to_nat (size - start)) start result = Done r.
Proof.
  induction k as [|k IH];
    intros size num_threads shift ix start result r
           Hshift Hix Hnt Hsize Hlast Hstart Hfit.
  - rewrite launch_threads_S, join_threads_cons.
    replace (wrap (num_threads - 1)) with ix
      by (unfold wrap; rewrite Z.mod_small; lia).
    rewrite Z.eqb_refl, fst_bind. unfold thread_body. cbn [fst snd].
    pose proof (worker_cold_eq d lon lat max_cache_size_nonneg start size result)
      as Hw.
    destruct (worker d lon lat start size result) as [[s'|e|] reads];
      cbn [fst snd] in Hw |- *; [|done..].
    intros [= ->]. done.
  - rewrite launch_threads_S, join_threads_cons.
    assert (0 ≤ start ∧ start + shift ≤ size) as [Hs0 Hs1] by nia.
    replace (wrap (num_threads - 1)) with (num_threads - 1)
      by (unfold wrap; rewrite Z.mod_small; lia).
    rewrite (proj2 (Z.eqb_neq ix (num_threads - 1))) by lia.
    replace (wrap (start + shift)) with (start + shift)
      by (unfold wrap; rewrite Z.mod_small; lia).
    rewrite fst_bind. unfold thread_body at 1. cbn [fst snd].
    pose proof (worker_cold_eq d lon lat max_cache_size_nonneg
                  start (start + shift) result) as Hw.
    replace (start + shift - start) with shift in Hw by lia.
    destruct (worker d lon lat start (start + shift) result)
      as [[r1|e|] reads]; cbn [fst snd] in Hw |- *; [| |done].
    + intros Hjoin.
      apply (IH size num_threads shift (ix + 1)) in Hjoin; try done; try lia.
      replace (Z.to_nat (size - start))
        with (Z.to_nat shift + Z.to_nat (size - (start + shift)))%nat by lia.
      eapply worker_loop_cold_app; [done|by symmetry|].
      by rewrite Z2Nat.id.
    + intros Hjoin.
      match type of Hjoin with
      | fst ?j = _ => destruct j as [[st| |] l] eqn:Hj; [|done..]
      end.
      apply join_threads_exception in Hj. cbn [fst] in Hjoin.
      injection Hjoin as ->. done.
Qed.

(** What a completed batch has computed, whatever the number of threads. *)
Lemma is_water_Done_cold num_threads hardware_concurrency r :
  0 ≤ num_threads → 0 ≤ hardware_concurrency →
  Z.of_nat (length lon) < SIZE_MOD →
  fst (is_water d lon lat num_threads hardware_concurrency) = Done r →
  length lon = length lat ∧
  worker_loop_cold d lon lat (length lon) 0 (repeat false (length lon))
  = Done r.
Proof.
  intros Hnt Hhw Hsize. unfold is_water.
  destruct (bool_decide (length lon ≠ length lat)) eqn:Hlen; [done|].
  apply bool_decide_eq_false in Hlen. apply dec_stable in Hlen.
  intros Hdone. split; [done|]. revert Hdone. unfold parallel_for.
  set (result := repeat false (length lon)).
  destruct (num_threads =? 1).
  - rewrite (worker_cold_eq d lon lat max_cache_size_nonneg).
    by rewrite Z.sub_0_r, Nat2Z.id.
  - set (size := Z.of_nat (length lon)) in *.
    set (nt := Z.min _ size).
    destruct (nt =? 0) eqn:Hnt0; [done|]. apply Z.eqb_neq in Hnt0.
    assert (1 ≤ nt ≤ size) as Hnt'.
    { unfold nt in *. destruct (num_threads =? 0); lia. }
    rewrite fst_bind.
    destruct (fst (join_threads _ _ _)) as [[s exc]| |] eqn:Hj; [|done..].
    destruct exc as [e|]; [done|]. simpl. intros [= ->].
    assert (Z.to_nat nt = S (Z.to_nat (nt - 1))) as Hk by lia.
    rewrite Hk in Hj.
    apply (join_threads_cold_inv _ size nt (size / nt) 0 0) in Hj;
      try done; try lia.
    + unfold size in Hj. by rewrite Z.sub_0_r, Nat2Z.id in Hj.
    + apply Z.div_pos; lia.
    + apply Z.mul_div_le. lia.
Qed.

End BatchPointwise.

(** X15.  For a batch that is not empty the number of threads does not
    matter to the result: the dispatch completes with a result exactly when
    the synchronous path ([num_threads = 1]) completes with it. *)
Theorem dispatch_iff_synchronous (d : Dataset) (lon lat : list double)
    (num_threads hardware_concurrency : Z) (r : list bool) :
  0 ≤ max_cache_size_ d →
  0 < Z.of_nat (length lon) < SIZE_MOD →
  0 ≤ num_threads →
  1 ≤ hardware_concurrency →
  fst (is_water d lon lat num_threads hardware_concurrency) = Done r
  ↔ fst (is_water d lon lat 1 hardware_concurrency) = Done r.
Proof.
  intros Hmax Hsize Hnt Hhw. split.
  - intros Hp.
    destruct (is_water_Done_cold d lon lat Hmax num_threads
                hardware_concurrency r Hnt ltac:(lia) ltac:(lia) Hp)
      as [Hlen Hcold].
    unfold is_water.
    rewrite bool_decide_eq_false_2 by (by intros ?).
    unfold parallel_for. simpl.
    rewrite (worker_cold_eq d lon lat Hmax).
    by rewrite Z.sub_0_r, Nat2Z.id.
  - intros Hs.
    destruct (is_water_Done_cold d lon lat Hmax 1 hardware_concurrency r
                ltac:(lia) ltac:(lia) ltac:(lia) Hs) as [Hlen _].
    destruct (is_water d lon lat 1 hardware_concurrency) as [o reads] eqn:Hq.
    simpl in Hs. subst o.
    by eapply dispatch_matches_synchronous.
Qed.

(** Five points answered by two threads and by one. *)
Lemma dispatch_iff_synchronous_witness :
  fst (is_water small_dataset
         [dbl 1 (-1); dbl 7 (-1); dbl 7 (-1); dbl 5 0; dbl 7 (-1)]
         [dbl 1 (-1); dbl 1 (-1); dbl 1 (-1); dbl 5 0; dbl 7 (-1)] 2 8)
  = Done [false; true; true; false; false]
  ↔ fst (is_water small_dataset
           [dbl 1 (-1); dbl 7 (-1); dbl 7 (-1); dbl 5 0; dbl 7 (-1)]
           [dbl 1 (-1); dbl 1 (-1); dbl 1 (-1); dbl 5 0; dbl 7 (-1)] 1 8)
    = Done [false; true; true; false; false].
Proof.
  apply (dispatch_iff_synchronous small_dataset
           [dbl 1 (-1); dbl 7 (-1); dbl 7 (-1); dbl 5 0; dbl 7 (-1)]
           [dbl 1 (-1); dbl 1 (-1); dbl 1 (-1); dbl 5 0; dbl 7 (-1)] 2 8).
  - vm_compute. discriminate.
  - vm_compute. split; reflexivity.
  - lia.
  - lia.
Defined.

(** X16.  A batch that completes has answered every point as a single
    query against newly allocated caches answers it: the result has one
    slot per point, and slot [i] holds the answer for
    [(lon(i), lat(i))].  This holds for every number of threads. *)
Theorem is_water_pointwise (d : Dataset) (lon lat : list double)
    (num_threads hardware_concurrency : Z) (r : list bool) :
  0 ≤ max_cache_size_ d →
  0 ≤ num_threads → 0 ≤ hardware_concurrency →
  Z.of_nat (length lon) < SIZE_MOD →
  fst (is_water d lon lat num_threads hardware_concurrency) = Done r →
  length lon = length lat ∧ length r = length lon ∧
  ∀ (i : nat) x y,
    lon !! i = Some x → lat !! i = Some y →
    ∃ b, r !! i = Some b ∧
         verdict (is_water_collection (tile_size_ d) x y (allocate_cache d))
         = Done b.
Proof.
  intros Hmax Hnt Hhw Hsize Hdone.
  destruct (is_water_Done_cold d lon lat Hmax num_threads
              hardware_concurrency r Hnt Hhw Hsize Hdone) as [Hlen Hcold].
  apply worker_loop_cold_spec in Hcold as (Hlr & _ & Hfill); [|done].
  rewrite repeat_length in Hlr.
  split; [done|]. split; [done|].
  intros i x y Hx Hy.
  destruct (Hfill i) as (x' & y' & b & Hx' & Hy' & Hv & Hr).
  { apply lookup_lt_Some in Hx. lia. }
  exists b. split; [done|]. congruence.
Qed.

(** Five points answered by two threads. *)
Lemma is_water_pointwise_witness :
  length [dbl 1 (-1); dbl 7 (-1); dbl 7 (-1); dbl 5 0; dbl 7 (-1)]
  = length [dbl 1 (-1); dbl 1 (-1); dbl 1 (-1); dbl 5 0; dbl 7 (-1)] ∧
  length [false; true; true; false; false]
  = length [dbl 1 (-1); dbl 7 (-1); dbl 7 (-1); dbl 5 0; dbl 7 (-1)] ∧
  ∀ (i : nat) x y,
    [dbl 1 (-1); dbl 7 (-1); dbl 7 (-1); dbl 5 0; dbl 7 (-1)] !! i = Some x →
    [dbl 1 (-1); dbl 1 (-1); dbl 1 (-1); dbl 5 0; dbl 7 (-1)] !! i = Some y →
    ∃ b, [false; true; true; false; false] !! i = Some b ∧
         verdict (is_water_collection (tile_size_ small_dataset) x y
                    (allocate_cache small_dataset))
         = Done b.
Proof.
  apply (is_water_pointwise small_dataset
           [dbl 1 (-1); dbl 7 (-1); dbl 7 (-1); dbl 5 0; dbl 7 (-1)]
           [dbl 1 (-1); dbl 1 (-1); dbl 1 (-1); dbl 5 0; dbl 7 (-1)] 2 8).
  - vm_compute. discriminate.
  - lia.
  - lia.
  - vm_compute. reflexivity.
  - vm_compute. reflexivity.
Defined.

(** ** What is read *)

Section Reads.

Lemma snd_bind {A B : Type} (m : M A) (f : A → M B) :
  snd (bind m f) = match fst m with
                   | Done a => snd m ++ snd (f a)
                   | _ => snd m
                   end.
Proof. destruct m as [[a|e|] l]; simpl; [destruct (f a)|..]; done. Qed.

Lemma read_tile_log tile_size key info :
  snd (read_tile tile_size key info) = [] ∨
  ∃ w, snd (read_tile tile_size key info) = [w].
Proof.
  unfold read_tile. cbv zeta. destruct (_ || _); [by left|].
  right. eexists. apply read_band_log.
Qed.

Lemma load_tile_cache_log tile_size key dc :
  snd (load_tile_cache tile_size key dc)
  = snd (read_tile tile_size key (dataset_info dc)).
Proof.
  unfold load_tile_cache. rewrite snd_bind.
  destruct (fst (read_tile _ _ _)) as [t| |]; [|done..].
  rewrite bind_lift.
  destruct (add_tile_to_cache _ _ _); simpl; by rewrite app_nil_r.
Qed.

(** The reads of a query are those of its fetch. *)
Lemma is_water_cache_log tile_size lon lat dc :
  snd (is_water_cache tile_size lon lat dc) = [] ∨
  tile_size ≠ 0 ∧
  ∃ key, snd (is_water_cache tile_size lon lat dc)
         = snd (read_tile tile_size key (dataset_info dc)).
Proof.
  unfold is_water_cache.
  destruct (transform (dataset_info dc) lon lat) as [[x y]|]; [|by left].
  cbv zeta. rewrite bind_lift.
  destruct (pixel_index x _ _) as [pixel_x| |]; [|by left..].
  rewrite bind_lift.
  destruct (pixel_index y _ _) as [pixel_y| |]; [|by left..].
  destruct (tile_size =? 0) eqn:Hts; [by left|]. apply Z.eqb_neq in Hts.
  rewrite snd_bind.
  set (key := (to_int (pixel_x / tile_size), to_int (pixel_y / tile_size))).
  assert (snd (fetch_tile tile_size key dc) = [] ∨
          snd (fetch_tile tile_size key dc)
          = snd (read_tile tile_size key (dataset_info dc))) as Hfetch.
  { unfold fetch_tile. destruct (is_tile_in_cache _ _); [by left|].
    right. apply load_tile_cache_log. }
  assert (∀ dc1,
            snd (let '(tile_data, cache') :=
                   get_tile_from_cache key (tile_cache dc1) in
                 match tile_data !! Z.to_nat
                         (wrap (pixel_y mod tile_size * tile_size
                                + pixel_x mod tile_size)) with
                 | Some v =>
                     ret (v =? 1,
                          {| dataset_info := dataset_info dc;
                             tile_cache := cache' |})
                 | None => undefined
                 end) = []) as Hrest.
  { intros dc1. destruct (get_tile_from_cache _ _) as [tile cache'].
    by destruct (tile !! _). }
  destruct (fst (fetch_tile tile_size key dc)) as [dc1| |].
  - rewrite Hrest, app_nil_r. destruct Hfetch as [->| ->]; [by left|].
    right. split; [done|]. by exists key.
  - destruct Hfetch as [->| ->]; [by left|]. right. split; [done|]. by exists key.
  - destruct Hfetch as [->| ->]; [by left|]. right. split; [done|]. by exists key.
Qed.

Lemma is_water_cache_read_count tile_size lon lat dc :
  (length (snd (is_water_cache tile_size lon lat dc)) ≤ 1)%nat.
Proof.
  destruct (is_water_cache_log tile_size lon lat dc) as [->|[_ [key ->]]];
    [simpl; lia|].
  destruct (read_tile_log tile_size key (dataset_info dc)) as [->|[w ->]];
    simpl; lia.
Qed.


Lemma collection_infos tile_size lon lat cs b cs' reads :
  is_water_collection tile_size lon lat cs = (Done (b, cs'), reads) →
  dataset_info <$> cs' = dataset_info <$> cs.
Proof.
  revert b cs' reads. induction cs as [|item rest IH]; intros b cs' reads.
  { by intros [= <- <- _]. }
  cbn [is_water_collection]. destruct (contains _ lon lat).
  - intros Hq. apply bind_Done in Hq as ([b1 item'] & l1 & l2 & Hq1 & Hq2 & _).
    apply is_water_cache_info in Hq1. cbn [fst snd] in Hq2. destruct b1.
    + injection Hq2 as <- <- _. rewrite !fmap_cons. by rewrite Hq1.
    + apply bind_Done in Hq2 as ([b2 rest'] & l3 & l4 & Hq3 & Hq4 & _).
      injection Hq4 as <- <-. cbn [fst snd]. rewrite !fmap_cons.
      by rewrite Hq1, (IH _ _ _ Hq3).
  - intros Hq. apply bind_Done in Hq as ([b2 rest'] & l3 & l4 & Hq3 & Hq4 & _).
    injection Hq4 as <- <-. cbn [fst snd]. rewrite !fmap_cons.
    by rewrite (IH _ _ _ Hq3).
Qed.

Lemma collection_log tile_size lon lat cs (Q : Z * Z * Z * Z → Prop) :
  (∀ item, item ∈ cs →
           Forall Q (snd (is_water_cache tile_size lon lat item))) →
  Forall Q (snd (is_water_collection tile_size lon lat cs)) ∧
  (length (snd (is_water_collection tile_size lon lat cs)) ≤ length cs)%nat.
Proof.
  induction cs as [|item rest IH]; intros HQ; [by split|].
  destruct IH as [IH1 IH2].
  { intros it Hit. apply HQ. by right. }
  pose proof (HQ item ltac:(left)) as Hitem.
  pose proof (is_water_cache_read_count tile_size lon lat item) as Hone.
  cbn [is_water_collection]. destruct (contains _ lon lat).
  - rewrite snd_bind.
    destruct (fst (is_water_cache tile_size lon lat item)) as [[b item']| |];
      [|split; [done|simpl; lia]..].
    cbn [fst snd]. destruct b.
    + simpl. rewrite app_nil_r. split; [done|simpl; lia].
    + rewrite snd_bind.
      assert (∀ (o : outcome (bool * list DatsetCache)) (l : list (Z * Z * Z * Z)),
                match o with
                | Done a => l ++ snd (ret (fst a, item' :: snd a))
                | _ => l
                end = l) as Hret.
      { intros o l. destruct o; simpl; by rewrite ?app_nil_r. }
      rewrite Hret. split.
      * by apply Forall_app.
      * rewrite length_app. simpl. lia.
  - rewrite snd_bind.
    assert (∀ (o : outcome (bool * list DatsetCache)) (l : list (Z * Z * Z * Z)),
              match o with
              | Done a => l ++ snd (ret (fst a, item :: snd a))
              | _ => l
              end = l) as Hret.
    { intros o l. destruct o; simpl; by rewrite ?app_nil_r. }
    rewrite Hret. split; [done|simpl; lia].
Qed.

End Reads.

Section WorkerReads.

Variables (d : Dataset) (lon lat : list double) (Q : Z * Z * Z * Z → Prop).
Hypothesis query_reads :
  ∀ x y item, dataset_info item ∈ base_datasets_ d →
              Forall Q (snd (is_water_cache (tile_size_ d) x y item)).

Lemma worker_loop_log n :
  ∀ ix cache result,
    dataset_info <$> cache = base_datasets_ d →
    Forall Q (snd (worker_loop d lon lat n ix cache result)) ∧
    (length (snd (worker_loop d lon lat n ix cache result))
     ≤ n * length (base_datasets_ d))%nat.
Proof.
  induction n as [|n IH]; intros ix cache result Hinfos; [by split|].
  cbn [worker_loop].
  destruct (lon !! Z.to_nat ix) as [x|]; [|split; [done|simpl; lia]].
  destruct (lat !! Z.to_nat ix) as [y|]; [|split; [done|simpl; lia]].
  rewrite snd_bind.
  destruct (collection_log (tile_size_ d) x y cache Q) as [Hc1 Hc2].
  { intros item Hit. apply query_reads. rewrite <- Hinfos.
    by apply list_elem_of_fmap_2. }
  assert (length cache = length (base_datasets_ d)) as Hlen
    by (by rewrite <- Hinfos, length_fmap).
  destruct (is_water_collection (tile_size_ d) x y cache)
    as [[[b cs']| |] reads] eqn:Hq; cbn [fst snd] in *;
    [|split; [done|lia]..].
  destruct (bool_decide _); [|simpl; rewrite app_nil_r; split; [done|lia]].
  destruct (IH (ix + 1) cs' (<[Z.to_nat ix:=b]> result)) as [IH1 IH2].
  { apply collection_infos in Hq. congruence. }
  split; [by apply Forall_app|]. rewrite length_app. lia.
Qed.

Lemma worker_log start end_ result :
  Forall Q (snd (worker d lon lat start end_ result)) ∧
  (length (snd (worker d lon lat start end_ result))
   ≤ Z.to_nat (end_ - start) * length (base_datasets_ d))%nat.
Proof.
  unfold worker. apply worker_loop_log. unfold allocate_cache.
  rewrite <- list_fmap_compose. by rewrite list_fmap_id.
Qed.

End WorkerReads.

Section DispatchReads.

Context {S : Type} (w : Z → Z → S → M S) (Q : Z * Z * Z * Z → Prop) (R : nat).
Hypothesis worker_reads :
  ∀ start end_ s,
    Forall Q (snd (w start end_ s)) ∧
    (length (snd (w start end_ s)) ≤ Z.to_nat (end_ - start) * R)%nat.

Lemma thread_body_log range st :
  snd (thread_body w range st) = snd (w (fst range) (snd range) (fst st)).
Proof.
  unfold thread_body. by destruct (w _ _ _) as [[?|?|] ?].
Qed.


Lemma join_threads_count k :
  ∀ size num_threads shift ix start st,
    0 ≤ shift → 0 ≤ ix → 1 ≤ num_threads ≤ size → size < SIZE_MOD →
    ix + Z.of_nat (Datatypes.S k) = num_threads →
    start = ix * shift →
    num_threads * shift ≤ size →
    (length (snd (join_threads w
                    (launch_threads (Datatypes.S k) ix start size num_threads
                       shift) st))
     ≤ Z.to_nat (size - start) * R)%nat.
Proof.
  induction k as [|k IH];
    intros size num_threads shift ix start st
           Hshift Hix Hnt Hsize Hlast Hstart Hfit.
  - rewrite launch_threads_S, join_threads_cons, snd_bind.
    rewrite (wrap_small (num_threads - 1)) by lia.
    replace (num_threads - 1) with ix by lia. rewrite Z.eqb_refl.
    rewrite thread_body_log. cbn [fst snd].
    pose proof (proj2 (worker_reads start size (fst st))) as Hw.
    destruct (fst (thread_body _ _ _)); [|done..].
    simpl. by rewrite app_nil_r.
  - rewrite launch_threads_S, join_threads_cons, snd_bind.
    assert (0 ≤ start ∧ start + shift ≤ size) as [Hs0 Hs1] by nia.
    rewrite (wrap_small (num_threads - 1)) by lia.
    rewrite (proj2 (Z.eqb_neq ix (num_threads - 1))) by lia.
    rewrite (wrap_small (start + shift)) by lia.
    rewrite thread_body_log. cbn [fst snd].
    pose proof (proj2 (worker_reads start (start + shift) (fst st))) as Hw.
    destruct (fst (thread_body _ _ _)) as [st1| |]; [|nia..].
    rewrite length_app.
    pose proof (IH size num_threads shift (ix + 1) (start + shift) st1
                  Hshift ltac:(lia) Hnt Hsize ltac:(lia) ltac:(lia) Hfit).
    nia.
Qed.


Lemma parallel_for_count size num_threads hw s :
  0 ≤ num_threads → 0 ≤ hw → 0 ≤ size < SIZE_MOD →
  (length (snd (parallel_for w size num_threads hw s)) ≤ Z.to_nat size * R)%nat.
Proof.
  intros Hnt Hhw Hsize. unfold parallel_for.
  destruct (num_threads =? 1).
  { pose proof (proj2 (worker_reads 0 size s)) as Hw.
    by rewrite Z.sub_0_r in Hw. }
  set (nt := Z.min _ size).
  destruct (nt =? 0) eqn:Hnt0; [simpl; lia|]. apply Z.eqb_neq in Hnt0.
  assert (1 ≤ nt ≤ size) as Hnt'.
  { unfold nt in *. destruct (num_threads =? 0); lia. }
  rewrite snd_bind.
  assert (Z.to_nat nt = Datatypes.S (Z.to_nat (nt - 1))) as -> by lia.
  pose proof (join_threads_count (Z.to_nat (nt - 1)) size nt (size / nt) 0 0
                (s, None)) as Hj.
  rewrite Z.sub_0_r in Hj.
  assert (0 ≤ size / nt) by (apply Z.div_pos; lia).
  assert (nt * (size / nt) ≤ size) by (apply Z.mul_div_le; lia).
  specialize (Hj ltac:(lia) ltac:(lia) ltac:(lia) ltac:(lia) ltac:(lia)
                 ltac:(lia) ltac:(lia)).
  destruct (fst (join_threads _ _ _)) as [st| |]; [|done..].
  destruct (snd st); simpl; by rewrite app_nil_r.
Qed.

End DispatchReads.



(** X18.  The batch query reads at most one tile per point and raster:
    the number of calls of [RasterIO] is at most the number of points times
    the number of rasters, whatever the number of threads. *)
Theorem is_water_read_count (d : Dataset) (lon lat : list double)
    (num_threads hardware_concurrency : Z) :
  0 ≤ num_threads → 0 ≤ hardware_concurrency →
  Z.of_nat (length lon) < SIZE_MOD →
  (length (snd (is_water d lon lat num_threads hardware_concurrency))
   ≤ length lon * length (base_datasets_ d))%nat.
Proof.
  intros Hnt Hhw Hsize. unfold is_water.
  destruct (bool_decide _); [simpl; lia|].
  pose proof (parallel_for_count (worker d lon lat) (λ _, True)
                (length (base_datasets_ d))) as Hcount.
  rewrite <- (Nat2Z.id (length lon)) at 3. apply Hcount; try lia.
  intros start end_ s. apply worker_log. intros x y item _.
  apply Forall_forall. done.
Qed.

(** Five points, one raster, two threads: at most five reads. *)
Lemma is_water_read_count_witness :
  (length (snd (is_water small_dataset
                  [dbl 1 (-1); dbl 7 (-1); dbl 7 (-1); dbl 5 0; dbl 7 (-1)]
                  [dbl 1 (-1); dbl 1 (-1); dbl 1 (-1); dbl 5 0; dbl 7 (-1)]
                  2 8))
   ≤ 5 * 1)%nat.
Proof.
  apply (is_water_read_count small_dataset
           [dbl 1 (-1); dbl 7 (-1); dbl 7 (-1); dbl 5 0; dbl 7 (-1)]
           [dbl 1 (-1); dbl 1 (-1); dbl 1 (-1); dbl 5 0; dbl 7 (-1)] 2 8).
  - lia.
  - lia.
  - vm_compute. reflexivity.
Defined.

(** ** The caches of a worker *)

(** X19.  The caches of a worker stay within their capacity and hold only
    tiles of their raster: after any sequence of completed queries from
    newly allocated caches there is still one cache per raster, in input
    order and with the configured capacity; it holds at most that many
    tiles, its recency list is a permutation of its keys, and every tile it
    holds is what a read of the raster returns for the key. *)
Theorem worker_caches_bounded (d : Dataset) (points : list (double * double))
    (cs : list DatsetCache) :
  0 ≤ max_cache_size_ d →
  caches_after d points (allocate_cache d) = Some cs →
  Forall2
    (λ info dc,
       dataset_info dc = info ∧
       max_tiles_ (tile_cache dc) = max_cache_size_ d ∧
       Z.of_nat (size (tile_map_ (tile_cache dc))) ≤ max_cache_size_ d ∧
       access_order_ (tile_cache dc)
         ≡ₚ (map_to_list (tile_map_ (tile_cache dc))).*1 ∧
       ∀ k t, tile_map_ (tile_cache dc) !! k = Some t →
              fst (read_tile (tile_size_ d) k info) = Done t)
    (base_datasets_ d) cs.
Proof.
  intros Hmax Hafter.
  destruct (caches_after_coherent d points _ _
              (coherent_allocate_cache d Hmax) Hafter) as [Hc Hs].
  clear Hafter. revert Hc Hs. unfold allocate_cache.
  generalize (base_datasets_ d).
  induction cs as [|dc cs' IH]; intros infos Hc Hs.
  - destruct infos; [constructor|inversion Hs].
  - destruct infos as [|info infos']; [inversion Hs|].
    simpl in Hs. apply Forall2_cons in Hs as [[Hinfo Hm] Hs].
    apply Forall_cons in Hc as [(Hsync & Hsz & Hdata) Hc].
    simpl in Hinfo, Hm. constructor; [|by apply IH].
    split; [done|]. split; [done|]. split; [lia|].
    split; [by apply synced_Permutation|].
    intros k t Hk. rewrite Hinfo. by apply Hdata.
Qed.

(** Three queries against the one-tile cache of [small_dataset]. *)
Lemma worker_caches_bounded_witness :
  ∃ cs,
    caches_after small_dataset
      [(dbl 1 (-1), dbl 1 (-1)); (dbl 7 (-1), dbl 1 (-1));
       (dbl 1 (-1), dbl 7 (-1))]
      (allocate_cache small_dataset) = Some cs ∧
    Forall2
      (λ info dc,
         dataset_info dc = info ∧
         max_tiles_ (tile_cache dc) = 1 ∧
         Z.of_nat (size (tile_map_ (tile_cache dc))) ≤ 1 ∧
         access_order_ (tile_cache dc)
           ≡ₚ (map_to_list (tile_map_ (tile_cache dc))).*1 ∧
         ∀ k t, tile_map_ (tile_cache dc) !! k = Some t →
                fst (read_tile 2 k info) = Done t)
      (base_datasets_ small_dataset) cs.
Proof.
  eexists. split; [vm_compute; reflexivity|].
  refine (worker_caches_bounded small_dataset
            [(dbl 1 (-1), dbl 1 (-1)); (dbl 7 (-1), dbl 1 (-1));
             (dbl 1 (-1), dbl 7 (-1))] _ _ _).
  - vm_compute. discriminate.
  - vm_compute. reflexivity.
Defined.
